(** * Study-Room-Focus-Simulator: the [SoundEngine] class of [src/app.js]

    A shallow embedding of the audio engine (app.js, lines 4-205) and the
    properties its specification states about it, followed by the code of
    the page that drives the engine: the handlers of the sound buttons, the
    timer, the streak and the start and reset buttons.

    Modelling conventions.
    - A JavaScript number is an exact rational ([Q]); IEEE-754 rounding is not
      part of the model.
    - The five sound records are created once by the constructor and
      [this.sounds] is never reassigned, so a sound object is identified by
      its key ([SoundName]); [sound === this.sounds.alpha] is equality of keys.
    - Audio nodes are objects that the engine mutates after it has stored
      references to them ([gain.value], [stop()], [disconnect()]): they live in
      a store ([heap]) and [sound.nodes] holds references into it.
    - Every method is a computation in the monad [JS.M]: it threads the world
      (engine object, node store, document) and completes normally or
      abruptly (a thrown exception); state written before a throw is kept.
    - [async] methods are run to completion: every caller in app.js awaits
      them, and none of them awaits anything but another engine method.
    - The browser offers the Web Audio API: creating the context and its
      nodes does not fail. *)

From Stdlib Require Import ZArith QArith Qabs Qround Lia Lqa.
From stdpp Require Import base option list strings gmap pretty.

Set Default Proof Using "Type".

(** ** The Web Audio objects the engine builds *)

Module WebAudio.

(** What a node's output is connected to: the context's destination or
    another node (by reference). *)
Inductive Target : Type :=
| Destination
| Node (ref : nat).

#[global] Instance Target_eq_dec : EqDecision Target.
Proof. solve_decision. Defined.

Inductive OscillatorType : Type := sine | square | sawtooth | triangle.

(** The four kinds of node the engine creates, each with the attributes the
    engine reads or writes and its outgoing connections.
    [onaudioprocess] of a script processor is [None] until a handler is
    installed; the handler of app.js:93 closes over one variable,
    [lastOut], whose current value is what [Some] carries. *)
Inductive AudioNode : Type :=
| GainNode (gain : Q) (outputs : list Target)
| OscillatorNode (frequency : Q) (type : OscillatorType)
                 (started stopped : bool) (outputs : list Target)
| StereoPannerNode (pan : Q) (outputs : list Target)
| ScriptProcessorNode (bufferSize : nat) (onaudioprocess : option Q)
                      (outputs : list Target).

Definition outputs_of (n : AudioNode) : list Target :=
  match n with
  | GainNode _ o | OscillatorNode _ _ _ _ o
  | StereoPannerNode _ o | ScriptProcessorNode _ _ o => o
  end.

Definition is_oscillator (n : AudioNode) : bool :=
  match n with OscillatorNode _ _ _ _ _ => true | _ => false end.

(** [node.stop] is defined on source nodes only. *)
Definition has_stop (n : AudioNode) : bool := is_oscillator n.

(** [node.gain] is defined on gain nodes only. *)
Definition has_gain (n : AudioNode) : bool :=
  match n with GainNode _ _ => true | _ => false end.

Definition gain_of (n : AudioNode) : option Q :=
  match n with GainNode g _ => Some g | _ => None end.

(** Field writes. A write to an attribute the node does not have creates
    an expando property that nothing reads: the node is unchanged. *)
Definition with_gain (v : Q) (n : AudioNode) : AudioNode :=
  match n with GainNode _ o => GainNode v o | _ => n end.

Definition with_frequency (v : Q) (n : AudioNode) : AudioNode :=
  match n with
  | OscillatorNode _ t a b o => OscillatorNode v t a b o
  | _ => n
  end.

Definition with_type (t : OscillatorType) (n : AudioNode) : AudioNode :=
  match n with
  | OscillatorNode f _ a b o => OscillatorNode f t a b o
  | _ => n
  end.

Definition with_pan (v : Q) (n : AudioNode) : AudioNode :=
  match n with StereoPannerNode _ o => StereoPannerNode v o | _ => n end.

Definition with_onaudioprocess (lastOut : Q) (n : AudioNode) : AudioNode :=
  match n with
  | ScriptProcessorNode b _ o => ScriptProcessorNode b (Some lastOut) o
  | _ => n
  end.

Definition with_outputs (o : list Target) (n : AudioNode) : AudioNode :=
  match n with
  | GainNode g _ => GainNode g o
  | OscillatorNode f t a b _ => OscillatorNode f t a b o
  | StereoPannerNode p _ => StereoPannerNode p o
  | ScriptProcessorNode b h _ => ScriptProcessorNode b h o
  end.

(** [node.connect(t)]: connecting twice to the same target is one
    connection. *)
Definition connected (t : Target) (n : AudioNode) : AudioNode :=
  if decide (t ∈ outputs_of n) then n
  else with_outputs (outputs_of n ++ [t]) n.

(** [node.disconnect()]: drops every outgoing connection. *)
Definition disconnected (n : AudioNode) : AudioNode := with_outputs [] n.

(** [osc.start()], where it is allowed: a source may be started once. *)
Definition start_node (n : AudioNode) : option AudioNode :=
  match n with
  | OscillatorNode f t false b o => Some (OscillatorNode f t true b o)
  | _ => None
  end.

(** [osc.stop()], where it is allowed: a source that was never started
    cannot be stopped. *)
Definition stop_node (n : AudioNode) : option AudioNode :=
  match n with
  | OscillatorNode f t true _ o => Some (OscillatorNode f t true true o)
  | _ => None
  end.

Inductive AudioContextState : Type := suspended | running | closed.

(** The context: its [state], and how many [resume()] requests the engine
    has issued (the browser answers them later, outside the engine). *)
Record AudioContext : Type := {
  state : AudioContextState;
  resume_requests : nat
}.

End WebAudio.
Import WebAudio.

(** ** The document *)

(** An element, with the three properties app.js touches. The markup is not
    part of the sources; the volume controls are the range inputs
    [<name>Volume], and [value] is the integer [parseInt(slider.value)]
    yields. *)
Record Element : Type := {
  value : Z;
  textContent : string;
  classList : list string
}.

Definition Document : Type := gmap string Element.

(** [classList.remove(c)] *)
Definition classList_remove (c : string) (l : list string) : list string :=
  filter (λ x, x ≠ c) l.

(** [classList.toggle(c, force)] *)
Definition classList_toggle (c : string) (force : bool) (l : list string)
  : list string :=
  if force then (if decide (c ∈ l) then l else l ++ [c])
  else classList_remove c l.

(** ** The engine object *)

Inductive SoundName : Type := rain | alpha | theta | beta | gamma.

#[global] Instance SoundName_eq_dec : EqDecision SoundName.
Proof. solve_decision. Defined.

(** The property key of a sound in [this.sounds]. *)
Definition key (n : SoundName) : string :=
  match n with
  | rain => "rain" | alpha => "alpha" | theta => "theta"
  | beta => "beta" | gamma => "gamma"
  end.

(** [Object.keys(this.sounds)]: insertion order of the constructor. *)
Definition sound_keys : list SoundName := [rain; alpha; theta; beta; gamma].

Record Sound : Type := {
  playing : bool;
  nodes : list nat
}.

Record Sounds : Type := {
  s_rain : Sound;
  s_alpha : Sound;
  s_theta : Sound;
  s_beta : Sound;
  s_gamma : Sound
}.

Definition sound_at (n : SoundName) (s : Sounds) : Sound :=
  match n with
  | rain => s_rain s | alpha => s_alpha s | theta => s_theta s
  | beta => s_beta s | gamma => s_gamma s
  end.

Definition update_sound (n : SoundName) (f : Sound → Sound) (s : Sounds)
  : Sounds :=
  match n with
  | rain => {| s_rain := f (s_rain s); s_alpha := s_alpha s;
               s_theta := s_theta s; s_beta := s_beta s;
               s_gamma := s_gamma s |}
  | alpha => {| s_rain := s_rain s; s_alpha := f (s_alpha s);
                s_theta := s_theta s; s_beta := s_beta s;
                s_gamma := s_gamma s |}
  | theta => {| s_rain := s_rain s; s_alpha := s_alpha s;
                s_theta := f (s_theta s); s_beta := s_beta s;
                s_gamma := s_gamma s |}
  | beta => {| s_rain := s_rain s; s_alpha := s_alpha s;
               s_theta := s_theta s; s_beta := f (s_beta s);
               s_gamma := s_gamma s |}
  | gamma => {| s_rain := s_rain s; s_alpha := s_alpha s;
                s_theta := s_theta s; s_beta := s_beta s;
                s_gamma := f (s_gamma s) |}
  end.

Record SoundEngine : Type := {
  audioContext : option AudioContext;
  sounds : Sounds;
  currentPlayingSound : option SoundName
}.

(** ** The world an engine method runs in *)

(** [this] is the engine, [heap] the audio nodes created so far (a reference
    is an index), [document] the page, and [autoplay] the state in which the
    browser hands out a new context (its autoplay policy). *)
Record World : Type := {
  this : SoundEngine;
  heap : list AudioNode;
  document : Document;
  autoplay : AudioContextState
}.

Definition with_this (f : SoundEngine → SoundEngine) (w : World) : World :=
  {| this := f (this w); heap := heap w; document := document w;
     autoplay := autoplay w |}.

Definition with_heap (f : list AudioNode → list AudioNode) (w : World)
  : World :=
  {| this := this w; heap := f (heap w); document := document w;
     autoplay := autoplay w |}.

Definition with_document (f : Document → Document) (w : World) : World :=
  {| this := this w; heap := heap w; document := f (document w);
     autoplay := autoplay w |}.

Definition with_audioContext (c : option AudioContext) (e : SoundEngine)
  : SoundEngine :=
  {| audioContext := c; sounds := sounds e;
     currentPlayingSound := currentPlayingSound e |}.

Definition with_sounds (f : Sounds → Sounds) (e : SoundEngine) : SoundEngine :=
  {| audioContext := audioContext e; sounds := f (sounds e);
     currentPlayingSound := currentPlayingSound e |}.

Definition with_currentPlayingSound (c : option SoundName) (e : SoundEngine)
  : SoundEngine :=
  {| audioContext := audioContext e; sounds := sounds e;
     currentPlayingSound := c |}.

(** [this.sounds[n]] *)
Definition sound_of (n : SoundName) (w : World) : Sound :=
  sound_at n (sounds (this w)).

(** ** The monad of engine methods *)

Module JS.

Inductive Exn : Type := TypeError | InvalidStateError.

Inductive Completion (A : Type) : Type :=
| Normal (a : A)
| Throw (e : Exn).
Arguments Normal {A} a.
Arguments Throw {A} e.

Definition M (A : Type) : Type := World → Completion A * World.

Definition ret {A} (a : A) : M A := λ w, (Normal a, w).

Definition throw {A} (e : Exn) : M A := λ w, (Throw e, w).

Definition bind {A B} (m : M A) (k : A → M B) : M B :=
  λ w, match m w with
       | (Normal a, w') => k a w'
       | (Throw e, w') => (Throw e, w')
       end.

(** [try { m } catch (e) { }] *)
Definition try_ignore (m : M unit) : M unit :=
  λ w, (Normal tt, snd (m w)).

Definition gets {A} (f : World → A) : M A := λ w, (Normal (f w), w).

Definition modify (f : World → World) : M unit := λ w, (Normal tt, f w).

(** [l.forEach(f)] *)
Fixpoint forEach {A} (l : list A) (f : A → M unit) : M unit :=
  match l with
  | [] => ret tt
  | x :: l' => bind (f x) (λ _, forEach l' f)
  end.

(** The world a computation leaves, and how it completes. *)
Definition exec {A} (m : M A) (w : World) : World := snd (m w).
Definition result {A} (m : M A) (w : World) : Completion A := fst (m w).

End JS.
Import JS.

Declare Scope js_scope.
Delimit Scope js_scope with js.
Notation "'let*' x ':=' m 'in' k" := (bind m (λ x, k))
  (at level 10, x name, m at level 100, k at level 200) : js_scope.

(** ** Primitive steps of the methods *)

Section Primitives.
Local Open Scope js_scope.
Local Open Scope Q_scope.

(** [this.audioContext], about to be dereferenced: a [TypeError] on
    [null]. *)
Definition the_audioContext : M AudioContext :=
  let* c := gets (λ w, audioContext (this w)) in
  match c with
  | Some ctx => ret ctx
  | None => throw TypeError
  end.

(** A node the context creates: stored at a fresh reference. *)
Definition create (n : AudioNode) : M nat :=
  let* _ := the_audioContext in
  let* ref := gets (λ w, length (heap w)) in
  let* _ := modify (with_heap (λ h, h ++ [n])) in
  ret ref.

(** The creation methods, with the attribute defaults of the Web Audio
    API. *)
Definition createGain : M nat := create (GainNode 1 []).
Definition createOscillator : M nat :=
  create (OscillatorNode 440 sine false false []).
Definition createStereoPanner : M nat := create (StereoPannerNode 0 []).
Definition createScriptProcessor (bufferSize : nat) : M nat :=
  create (ScriptProcessorNode bufferSize None []).

(** A write through a reference. *)
Definition update (ref : nat) (f : AudioNode → AudioNode) : M unit :=
  modify (with_heap (alter f ref)).

(** [node.connect(t)] and [node.disconnect()] *)
Definition connect (ref : nat) (t : Target) : M unit :=
  update ref (connected t).
Definition disconnect (ref : nat) : M unit := update ref disconnected.

(** A method call that may be refused with an [InvalidStateError]. *)
Definition call (ref : nat) (f : AudioNode → option AudioNode) : M unit :=
  let* n := gets (λ w, heap w !! ref) in
  match n ≫= f with
  | Some n' => update ref (λ _, n')
  | None => throw InvalidStateError
  end.

Definition start (ref : nat) : M unit := call ref start_node.
Definition stop (ref : nat) : M unit := call ref stop_node.

(** The truthiness tests [if (node.stop)], [if (node.disconnect)] and
    [if (gainNode.gain)]. Every audio node has [disconnect]. *)
Definition node_has (p : AudioNode → bool) (ref : nat) : M bool :=
  gets (λ w, from_option p false (heap w !! ref)).

(** [document.getElementById(id)] *)
Definition getElementById (id : string) : M (option Element) :=
  gets (λ w, document w !! id).

(** Writes to the element with a given id. *)
Definition update_element (id : string) (f : Element → Element) : M unit :=
  modify (with_document (alter f id)).

(** [sound.nodes.push(...)], [sound.nodes = ...], [sound.playing = ...] *)
Definition push_nodes (n : SoundName) (refs : list nat) : M unit :=
  modify (with_this (with_sounds (update_sound n (λ s,
    {| playing := playing s; nodes := nodes s ++ refs |})))).

Definition set_nodes (n : SoundName) (refs : list nat) : M unit :=
  modify (with_this (with_sounds (update_sound n (λ s,
    {| playing := playing s; nodes := refs |})))).

Definition set_playing (n : SoundName) (b : bool) : M unit :=
  modify (with_this (with_sounds (update_sound n (λ s,
    {| playing := b; nodes := nodes s |})))).

Definition set_currentPlayingSound (c : option SoundName) : M unit :=
  modify (with_this (with_currentPlayingSound c)).

End Primitives.

(** ** The rain generator's audio callback (app.js:93-101) *)

Module Rain.
Local Open Scope Q_scope.

Definition bufferSize : nat := 4096.

(** Line 97, the new filter state from the old one and a white sample. *)
Definition filter (lastOut white : Q) : Q :=
  (lastOut + (0.02 * white)) / 1.02.

(** The loop of lines 95-100, from index [i] for [n] more samples;
    [random k] is what the [k]-th call of [Math.random()] in this block
    returns. It yields the final [lastOut] and the output buffer. The
    buffer is a typed array of the block's size: a write stays inside it,
    and the read back of [output[i]] finds the sample just written. *)
Fixpoint loop (n i : nat) (random : nat → Q) (lastOut : Q)
    (output : list Q) : Q * list Q :=
  match n with
  | O => (lastOut, output)
  | S n' =>
      let white := random i * 2 - 1 in
      let output := <[i := filter lastOut white]> output in
      let lastOut := default 0 (output !! i) in
      let output := alter (λ x, x * 3.5) i output in
      loop n' (S i) random lastOut output
  end.

(** The range of a white sample. *)
Definition in_unit_range (x : Q) : Prop := -1 <= x ∧ x <= 1.

(** The white samples of one block, [Math.random() * 2 - 1] for the
    draws [i], ..., [i + n - 1]. *)
Definition whites (random : nat → Q) (i n : nat) : list Q :=
  map (λ k, random k * 2 - 1) (seq i n).

(** The recurrence y[k] = (y[k-1] + 0.02 * x[k]) / 1.02 of line 97: the
    filter states y[1], ..., y[n] for the inputs x[1], ..., x[n], from
    y[0] = [y]. *)
Fixpoint states (xs : list Q) (y : Q) : list Q :=
  match xs with
  | [] => []
  | x :: xs' => filter y x :: states xs' (filter y x)
  end.

(** Line 97 and the store of line 97 into the [Float32Array], with every
    operation rounded: [fl] rounds to a double, [fl32] to a single, and the
    literals are the doubles nearest to them. *)
Definition rounded_filter (fl fl32 : Q → Q) (lastOut white : Q) : Q :=
  fl32 (fl (fl (lastOut + fl (fl 0.02 * white)) / fl 1.02)).

(** One call of the handler on a block of [size] samples. *)
Definition onaudioprocess (size : nat) (random : nat → Q) (lastOut : Q)
    (outputBuffer : list Q) : Q * list Q :=
  loop size 0 random lastOut outputBuffer.

(** The handler called on successive blocks, the closure's [lastOut]
    starting at [0.0]; each block has its own draws and its own buffer. *)
Fixpoint run (size : nat) (blocks : list (nat → Q)) (lastOut : Q) : Q :=
  match blocks with
  | [] => lastOut
  | random :: rest =>
      run size rest
        (fst (onaudioprocess size random lastOut (replicate size 0)))
  end.

End Rain.

(** ** The methods of [SoundEngine] *)

Section Methods.
Local Open Scope js_scope.
Local Open Scope Q_scope.

(** The constructor (lines 5-15). *)
Definition new_SoundEngine : SoundEngine :=
  let silent := {| playing := false; nodes := [] |} in
  {| audioContext := None;
     sounds := {| s_rain := silent; s_alpha := silent; s_theta := silent;
                  s_beta := silent; s_gamma := silent |};
     currentPlayingSound := None |}.

(** [audioContext.resume()]: the request is issued, not awaited. *)
Definition resume : M unit :=
  let* ctx := the_audioContext in
  modify (with_this (with_audioContext (Some
    {| state := state ctx;
       resume_requests := S (resume_requests ctx) |}))).

(** Lines 17-25. *)
Definition initAudioContext : M unit :=
  let* c := gets (λ w, audioContext (this w)) in
  let* _ :=
    match c with
    | None =>
        let* s := gets autoplay in
        modify (with_this (with_audioContext (Some
          {| state := s; resume_requests := 0 |})))
    | Some _ => ret tt
    end in
  let* ctx := the_audioContext in
  match state ctx with
  | suspended => resume
  | _ => ret tt
  end.

(** Lines 158-161. *)
Definition getVolume (soundName : SoundName) : M Z :=
  let* slider := getElementById (key soundName +:+ "Volume") in
  match slider with
  | Some el => ret (value el)
  | None => ret 70%Z
  end.

(** Lines 81-105. *)
Definition createRainSound (sound : SoundName) : M unit :=
  let* v := getVolume rain in
  let volume := inject_Z v / 100 in
  let* gainNode := createGain in
  let* _ := update gainNode (with_gain (volume * 0.3)) in
  let* _ := connect gainNode Destination in
  let* brownNoise := createScriptProcessor Rain.bufferSize in
  let* _ := update brownNoise (with_onaudioprocess 0) in
  let* _ := connect brownNoise (Node gainNode) in
  push_nodes sound [brownNoise; gainNode].

(** Lines 107-144. *)
Definition createBinauralBeat (sound : SoundName) (frequency : Q)
  : M unit :=
  let* v := getVolume (if decide (sound = alpha) then alpha else theta) in
  let volume := inject_Z v / 100 in
  let* gainNode := createGain in
  let* _ := update gainNode (with_gain (volume * 0.2)) in
  let* _ := connect gainNode Destination in
  let baseFreq := 200 in
  let* leftOsc := createOscillator in
  let* rightOsc := createOscillator in
  let* _ := update leftOsc (with_frequency baseFreq) in
  let* _ := update rightOsc (with_frequency (baseFreq + frequency)) in
  let* _ := update leftOsc (with_type sine) in
  let* _ := update rightOsc (with_type sine) in
  let* leftPanner := createStereoPanner in
  let* rightPanner := createStereoPanner in
  let* _ := update leftPanner (with_pan (-1)) in
  let* _ := update rightPanner (with_pan 1) in
  let* _ := connect leftOsc (Node leftPanner) in
  let* _ := connect rightOsc (Node rightPanner) in
  let* _ := connect leftPanner (Node gainNode) in
  let* _ := connect rightPanner (Node gainNode) in
  let* _ := start leftOsc in
  let* _ := start rightOsc in
  push_nodes sound [leftOsc; rightOsc; leftPanner; rightPanner; gainNode].

(** Lines 40-58. *)
Definition playSound (soundName : SoundName) : M unit :=
  let* _ := initAudioContext in
  let sound := soundName in
  let* _ :=
    match soundName with
    | rain => createRainSound sound
    | alpha => createBinauralBeat sound 10
    | theta => createBinauralBeat sound 6
    | beta => createBinauralBeat sound 20
    | gamma => createBinauralBeat sound 40
    end in
  set_playing sound true.

(** Lines 60-79. *)
Definition stopSound (soundName : SoundName) : M unit :=
  let* sound := gets (sound_of soundName) in
  let* _ := forEach (nodes sound) (λ node,
    let* s := node_has has_stop node in
    let* _ := if s then try_ignore (stop node) else ret tt in
    let* d := node_has (λ _, true) node in
    if d then disconnect node else ret tt) in
  let* _ := set_nodes soundName [] in
  set_playing soundName false.

(** Lines 27-38. *)
Definition toggleSound (soundName : SoundName) : M bool :=
  let* _ := initAudioContext in
  let* sound := gets (sound_of soundName) in
  let* _ :=
    if playing sound then stopSound soundName else playSound soundName in
  gets (λ w, playing (sound_of soundName w)).

(** Lines 146-156. *)
Definition setVolume (soundName : SoundName) (volume : Q) : M unit :=
  let* sound := gets (sound_of soundName) in
  if playing sound && bool_decide (0 < length (nodes sound))%nat then
    match nodes sound !! (length (nodes sound) - 1)%nat with
    | Some gainNode =>
        let* g := node_has has_gain gainNode in
        if g then
          let multiplier := if decide (soundName = rain) then 0.3 else 0.2 in
          update gainNode (with_gain ((volume / 100) * multiplier))
        else ret tt
    | None => throw TypeError
    end
  else ret tt.

(** The status line of a sound is cleared (lines 168-172, 184-188). *)
Definition clear_status (soundName : SoundName) : M unit :=
  let id := key soundName +:+ "Status" in
  let* status := getElementById id in
  match status with
  | Some _ =>
      update_element id (λ el,
        {| value := value el; textContent := "";
           classList := classList_remove "playing" (classList el) |})
  | None => ret tt
  end.

(** Lines 163-176. *)
Definition stopAllSounds : M unit :=
  let* _ := forEach sound_keys (λ soundName,
    let* sound := gets (sound_of soundName) in
    if playing sound then
      let* _ := stopSound soundName in
      clear_status soundName
    else ret tt) in
  set_currentPlayingSound None.

(** Lines 178-191. *)
Definition pauseSounds : M unit :=
  forEach sound_keys (λ soundName,
    let* sound := gets (sound_of soundName) in
    if playing sound then
      let* _ := set_currentPlayingSound (Some soundName) in
      let* _ := stopSound soundName in
      clear_status soundName
    else ret tt).

(** Lines 193-204. The method returns nothing; what it reports is the
    status line. *)
Definition resumeSounds : M unit :=
  let* current := gets (λ w, currentPlayingSound (this w)) in
  match current with
  | Some soundName =>
      let* isPlaying := toggleSound soundName in
      let id := key soundName +:+ "Status" in
      let* status := getElementById id in
      match status with
      | Some _ =>
          update_element id (λ el,
            {| value := value el;
               textContent := if isPlaying then "Playing" else "";
               classList :=
                 classList_toggle "playing" isPlaying (classList el) |})
      | None => ret tt
      end
  | None => ret tt
  end.

End Methods.

(** ** What each method does, as a function on worlds *)

Section Effects.
Local Open Scope Q_scope.

(** The context after [initAudioContext]. *)
Definition ensured (w : World) : AudioContext :=
  let ctx := default {| state := autoplay w; resume_requests := 0 |}
                     (audioContext (this w)) in
  match state ctx with
  | suspended => {| state := state ctx;
                    resume_requests := S (resume_requests ctx) |}
  | _ => ctx
  end.

Definition initialised (w : World) : World :=
  with_this (with_audioContext (Some (ensured w))) w.

(** What [getVolume] returns. *)
Definition volume_of (n : SoundName) (d : Document) : Z :=
  match d !! (key n +:+ "Volume") with
  | Some el => value el
  | None => 70%Z
  end.

(** The slider [createRainSound] and [createBinauralBeat] consult. *)
Definition volume_source (n : SoundName) : SoundName :=
  match n with
  | rain => rain
  | alpha => alpha
  | _ => theta
  end.

Definition beat_frequency (n : SoundName) : option Q :=
  match n with
  | rain => None
  | alpha => Some 10
  | theta => Some 6
  | beta => Some 20
  | gamma => Some 40
  end.

(** The nodes a start appends to the heap, the first at reference
    [base], and the references it appends to [sound.nodes]. *)
Definition rain_graph (v : Z) (base : nat) : list AudioNode :=
  [ GainNode (inject_Z v / 100 * 0.3) [Destination];
    ScriptProcessorNode Rain.bufferSize (Some 0) [Node base] ].

Definition beat_graph (v : Z) (f : Q) (base : nat) : list AudioNode :=
  [ GainNode (inject_Z v / 100 * 0.2) [Destination];
    OscillatorNode 200 sine true false [Node (base + 3)];
    OscillatorNode (200 + f) sine true false [Node (base + 4)];
    StereoPannerNode (-1) [Node base];
    StereoPannerNode 1 [Node base] ].

Definition graph (n : SoundName) (d : Document) (base : nat)
  : list AudioNode :=
  match beat_frequency n with
  | None => rain_graph (volume_of rain d) base
  | Some f => beat_graph (volume_of (volume_source n) d) f base
  end.

Definition graph_refs (n : SoundName) (base : nat) : list nat :=
  match n with
  | rain => [base + 1; base]%nat
  | _ => [base + 1; base + 2; base + 3; base + 4; base]%nat
  end.

Definition constructed (n : SoundName) (w : World) : World :=
  {| this := with_sounds (update_sound n (λ s,
               {| playing := playing s;
                  nodes := nodes s ++ graph_refs n (length (heap w)) |}))
               (this w);
     heap := heap w ++ graph n (document w) (length (heap w));
     document := document w;
     autoplay := autoplay w |}.

Definition marked (n : SoundName) (b : bool) (w : World) : World :=
  with_this (with_sounds (update_sound n (λ s,
    {| playing := b; nodes := nodes s |}))) w.

Definition played (n : SoundName) (w : World) : World :=
  marked n true (constructed n (initialised w)).

(** A node after [stop()] (where it is accepted) and [disconnect()]. *)
Definition released (n : AudioNode) : AudioNode :=
  disconnected (default n (stop_node n)).

Definition release (refs : list nat) (h : list AudioNode)
  : list AudioNode :=
  foldl (λ h r, alter released r h) h refs.

Definition stopped (n : SoundName) (w : World) : World :=
  {| this := with_sounds (update_sound n (λ _,
               {| playing := false; nodes := [] |})) (this w);
     heap := release (nodes (sound_of n w)) (heap w);
     document := document w;
     autoplay := autoplay w |}.

Definition toggled (n : SoundName) (w : World) : World :=
  if playing (sound_of n w) then stopped n (initialised w)
  else played n (initialised w).

End Effects.

(** ** The remaining methods, as functions on worlds *)

Section MoreEffects.
Local Open Scope Q_scope.

(** The status line of a sound rewritten, when the page has one. *)
Definition status_written (n : SoundName) (text : string)
    (cls : list string → list string) (d : Document) : Document :=
  match d !! (key n +:+ "Status") with
  | Some _ =>
      alter (λ el, {| value := value el; textContent := text;
                      classList := cls (classList el) |})
            (key n +:+ "Status") d
  | None => d
  end.

Definition status_cleared (n : SoundName) : Document → Document :=
  status_written n "" (classList_remove "playing").

(** One iteration of the loop of [stopAllSounds]. *)
Definition stop_step (n : SoundName) (w : World) : World :=
  if playing (sound_of n w)
  then with_document (status_cleared n) (stopped n w)
  else w.

Definition all_stopped (w : World) : World :=
  with_this (with_currentPlayingSound None)
            (foldl (λ w n, stop_step n w) w sound_keys).

(** One iteration of the loop of [pauseSounds]. *)
Definition pause_step (n : SoundName) (w : World) : World :=
  if playing (sound_of n w)
  then with_document (status_cleared n)
         (stopped n (with_this (with_currentPlayingSound (Some n)) w))
  else w.

Definition paused (w : World) : World :=
  foldl (λ w n, pause_step n w) w sound_keys.

Definition resumed (w : World) : World :=
  match currentPlayingSound (this w) with
  | Some n =>
      let isPlaying := negb (playing (sound_of n w)) in
      with_document
        (status_written n (if isPlaying then "Playing" else "")
                        (classList_toggle "playing" isPlaying))
        (toggled n w)
  | None => w
  end.

Definition multiplier (n : SoundName) : Q :=
  if decide (n = rain) then 0.3 else 0.2.

Definition volume_set (n : SoundName) (volume : Q) (w : World) : World :=
  let sound := sound_of n w in
  if playing sound && bool_decide (0 < length (nodes sound))%nat then
    match nodes sound !! (length (nodes sound) - 1)%nat with
    | Some gainNode =>
        if from_option has_gain false (heap w !! gainNode)
        then with_heap
               (alter (with_gain ((volume / 100) * multiplier n)) gainNode) w
        else w
    | None => w
    end
  else w.

End MoreEffects.

(** ** Vocabulary of the specification *)

(** The channel invariant of the data model: playing exactly when the
    node list is non-empty. *)
Definition consistent (s : Sound) : Prop :=
  playing s = true ↔ nodes s ≠ [].

Definition Invariant (w : World) : Prop :=
  ∀ n, consistent (sound_of n w).

(** The operations of the engine that its collaborators reach, with the
    two that [toggleSound] dispatches to. *)
Inductive Operation : Type :=
| ToggleSound (n : SoundName)
| PlaySound (n : SoundName)
| StopSound (n : SoundName)
| SetVolume (n : SoundName) (volume : Q)
| StopAllSounds
| PauseSounds
| ResumeSounds.

Definition perform (op : Operation) : M unit :=
  match op with
  | ToggleSound n => bind (toggleSound n) (λ _, ret tt)
  | PlaySound n => playSound n
  | StopSound n => stopSound n
  | SetVolume n v => setVolume n v
  | StopAllSounds => stopAllSounds
  | PauseSounds => pauseSounds
  | ResumeSounds => resumeSounds
  end.

(** The gain of a channel's gain stage: the node [setVolume] addresses, the
    last of the channel's node list. *)
Definition gain_stage (n : SoundName) (w : World) : option Q :=
  r ← last (nodes (sound_of n w)); nd ← heap w !! r; gain_of nd.

(** ** Pages and sessions used as concrete inputs *)

(** A page with the five volume sliders at the given values and the five
    status lines empty. *)
Definition page (volume : SoundName → Z) : Document :=
  list_to_map
    (flat_map (λ n,
       [ (key n +:+ "Volume",
          {| value := volume n; textContent := ""; classList := [] |});
         (key n +:+ "Status",
          {| value := 0; textContent := ""; classList := ["sound-status"] |}) ])
       sound_keys).

(** The world after [new SoundEngine()] on a page. *)
Definition fresh (d : Document) (policy : AudioContextState) : World :=
  {| this := new_SoundEngine; heap := []; document := d; autoplay := policy |}.

(** The assignment [soundEngine.currentPlayingSound = soundName] of the
    start button's handler (app.js:785). *)
Definition remember (n : SoundName) : M unit :=
  set_currentPlayingSound (Some n).

(** The sliders at their default, 70, but beta's at 30 and theta's at 90. *)
Definition sliders_30_90 (n : SoundName) : Z :=
  match n with
  | beta => 30
  | theta => 90
  | _ => 70
  end.

(** A session: the timer is started with rain (app.js:779-785), paused
    (741), the rain button is clicked (678) while the timer is paused. *)
Definition rain_restarted_while_paused : World :=
  let w := fresh (page (λ _, 70%Z)) running in
  let w := exec (toggleSound rain) w in
  let w := exec (remember rain) w in
  let w := exec pauseSounds w in
  exec (toggleSound rain) w.

(** ** Ownership of nodes and the order of the channels *)

(** Every reference a channel holds, in the order of the keys. *)
Definition owned_refs (w : World) : list nat :=
  flat_map (λ n, nodes (sound_of n w)) sound_keys.

(** No node is listed twice, by one channel or by two, and every reference
    points into the heap. *)
Definition Exclusive (w : World) : Prop :=
  NoDup (owned_refs w) ∧ Forall (λ r, r < length (heap w))%nat (owned_refs w).

(** The channels that are playing, in the order [pauseSounds] and
    [stopAllSounds] visit them. *)
Definition playing_keys (w : World) : list SoundName :=
  filter (λ n, playing (sound_of n w) = true) sound_keys.

(** A started oscillator that has not been stopped is sounding. *)
Definition sounding (n : AudioNode) : bool :=
  match n with
  | OscillatorNode _ _ true false _ => true
  | _ => false
  end.

(** The context [c'] is the context [c], up to resume requests issued while
    it is suspended. *)
Definition same_context (c c' : AudioContext) : Prop :=
  state c' = state c ∧
  (resume_requests c ≤ resume_requests c')%nat ∧
  (state c ≠ suspended → c' = c).

(** ** The handlers of the page that call the engine alone *)

Section Handlers.
Local Open Scope js_scope.

(** The click handler of a sound button (app.js:676-682). The status line
    is written without a test for [null]. *)
Definition soundButtonClick (soundName : SoundName) : M unit :=
  let* isPlaying := toggleSound soundName in
  let id := key soundName +:+ "Status" in
  let* status := getElementById id in
  match status with
  | Some _ =>
      update_element id (λ el,
        {| value := value el;
           textContent := if isPlaying then "Playing" else "";
           classList := classList_toggle "playing" isPlaying (classList el) |})
  | None => throw TypeError
  end.

End Handlers.

(** What a status line shows. *)
Definition shows (playing : bool) (el : Element) : Prop :=
  textContent el = (if playing then "Playing" else "") ∧
  ("playing" ∈ classList el ↔ playing = true).

(** Every status line the page has agrees with its channel. *)
Definition StatusSync (w : World) : Prop :=
  ∀ n el, document w !! (key n +:+ "Status") = Some el →
          shows (playing (sound_of n w)) el.

(** The calls through which the page changes what is playing: a click on a
    sound button, and the three methods the timer's buttons call (with
    [setVolume], which the sliders call). *)
Inductive PageCall : Type :=
| ClickSound (n : SoundName)
| SlideVolume (n : SoundName) (volume : Q)
| CallStopAll
| CallPause
| CallResume.

Definition page_call (c : PageCall) : M unit :=
  match c with
  | ClickSound n => soundButtonClick n
  | SlideVolume n v => setVolume n v
  | CallStopAll => stopAllSounds
  | CallPause => pauseSounds
  | CallResume => resumeSounds
  end.

(** * The timer, the streak and the buttons that drive them

    The rest of app.js that calls the engine: the class [PomodoroTimer]
    (lines 210-361), [StreakTracker.incrementStreak] (598-610) and the click
    handlers of the start and reset buttons (736-806).

    Modelling conventions, besides those of the engine.
    - Times are natural numbers of seconds, far below 2^53.
    - The keys of [this.modes] are a closed type; every caller passes one of
      them.
    - [localStorage] is read by key at the type of what app.js writes
      there; [JSON.parse] of what [JSON.stringify] wrote is the value.
    - What a call of [Math.random()], the date of the clock and the answer
      to [prompt] are is an argument of the method that asks.
    - Calls that only reach the platform (the notification tone, the
      desktop notification) are recorded in the order they are made. *)

Inductive TimerMode : Type := focus | short | long.

#[global] Instance TimerMode_eq_dec : EqDecision TimerMode.
Proof. solve_decision. Defined.

Record Mode : Type := {
  duration : nat;
  label : string
}.

Record PomodoroTimer : Type := {
  currentMode : TimerMode;
  timeRemaining : nat;
  isRunning : bool;
  interval : option nat;
  totalTime : nat
}.

(** What [localStorage] holds under the key [streakData]. *)
Record StreakData : Type := {
  count : nat;
  lastDate : option string
}.

(** The callbacks app.js hands to [setInterval] and [setTimeout]. *)
Inductive Callback : Type :=
| TimerTick
| HideReward.

(** The tone of [playNotificationSound] (lines 313-329). *)
Record Tone : Type := {
  tone_frequency : Q;
  tone_type : OscillatorType;
  tone_gain_from : Q;
  tone_gain_to : Q;
  tone_seconds : Q
}.

Inductive PlatformCall : Type :=
| PlayTone (t : Tone)
| ShowNotification (title body : string).

(** [style.strokeDashoffset] of the progress ring, in circumferences
    (2 * Math.PI * 90 each). *)
Inductive DashOffset : Type :=
| NotANumber
| Infinite
| Circumferences (q : Q).

Inductive ButtonFace : Type := FaceStart | FacePause.

(** The page around the engine's world. [handles] counts the handles
    [setInterval] and [setTimeout] have given out; a handle is positive. *)
Record Browser : Type := {
  streakData : option StreakData;
  intervals : gmap nat Callback;
  timeouts : gmap nat (nat * Callback);
  handles : nat;
  title : string;
  strokeDashoffset : DashOffset;
  startBtn : ButtonFace;
  notifications_granted : bool;
  calls : list PlatformCall
}.

Record App : Type := {
  world : World;
  timer : PomodoroTimer;
  streak : nat;
  browser : Browser
}.

Definition with_world (f : World → World) (a : App) : App :=
  {| world := f (world a); timer := timer a; streak := streak a;
     browser := browser a |}.

Definition with_timer (f : PomodoroTimer → PomodoroTimer) (a : App) : App :=
  {| world := world a; timer := f (timer a); streak := streak a;
     browser := browser a |}.

Definition with_streak (f : nat → nat) (a : App) : App :=
  {| world := world a; timer := timer a; streak := f (streak a);
     browser := browser a |}.

Definition with_browser (f : Browser → Browser) (a : App) : App :=
  {| world := world a; timer := timer a; streak := streak a;
     browser := f (browser a) |}.

(** Field updates of the timer and of the browser. *)
Definition with_currentMode (m : TimerMode) (t : PomodoroTimer)
  : PomodoroTimer :=
  {| currentMode := m; timeRemaining := timeRemaining t;
     isRunning := isRunning t; interval := interval t;
     totalTime := totalTime t |}.

Definition with_timeRemaining (n : nat) (t : PomodoroTimer)
  : PomodoroTimer :=
  {| currentMode := currentMode t; timeRemaining := n;
     isRunning := isRunning t; interval := interval t;
     totalTime := totalTime t |}.

Definition with_isRunning (b : bool) (t : PomodoroTimer) : PomodoroTimer :=
  {| currentMode := currentMode t; timeRemaining := timeRemaining t;
     isRunning := b; interval := interval t; totalTime := totalTime t |}.

Definition with_interval (i : option nat) (t : PomodoroTimer)
  : PomodoroTimer :=
  {| currentMode := currentMode t; timeRemaining := timeRemaining t;
     isRunning := isRunning t; interval := i; totalTime := totalTime t |}.

Definition with_totalTime (n : nat) (t : PomodoroTimer) : PomodoroTimer :=
  {| currentMode := currentMode t; timeRemaining := timeRemaining t;
     isRunning := isRunning t; interval := interval t; totalTime := n |}.

Definition with_streakData (d : option StreakData) (b : Browser) : Browser :=
  {| streakData := d; intervals := intervals b; timeouts := timeouts b;
     handles := handles b; title := title b;
     strokeDashoffset := strokeDashoffset b; startBtn := startBtn b;
     notifications_granted := notifications_granted b; calls := calls b |}.

Definition with_intervals (f : gmap nat Callback → gmap nat Callback)
    (b : Browser) : Browser :=
  {| streakData := streakData b; intervals := f (intervals b);
     timeouts := timeouts b; handles := handles b; title := title b;
     strokeDashoffset := strokeDashoffset b; startBtn := startBtn b;
     notifications_granted := notifications_granted b; calls := calls b |}.

Definition with_timeouts
    (f : gmap nat (nat * Callback) → gmap nat (nat * Callback))
    (b : Browser) : Browser :=
  {| streakData := streakData b; intervals := intervals b;
     timeouts := f (timeouts b); handles := handles b; title := title b;
     strokeDashoffset := strokeDashoffset b; startBtn := startBtn b;
     notifications_granted := notifications_granted b; calls := calls b |}.

Definition with_handles (n : nat) (b : Browser) : Browser :=
  {| streakData := streakData b; intervals := intervals b;
     timeouts := timeouts b; handles := n; title := title b;
     strokeDashoffset := strokeDashoffset b; startBtn := startBtn b;
     notifications_granted := notifications_granted b; calls := calls b |}.

Definition with_title (t : string) (b : Browser) : Browser :=
  {| streakData := streakData b; intervals := intervals b;
     timeouts := timeouts b; handles := handles b; title := t;
     strokeDashoffset := strokeDashoffset b; startBtn := startBtn b;
     notifications_granted := notifications_granted b; calls := calls b |}.

Definition with_strokeDashoffset (o : DashOffset) (b : Browser) : Browser :=
  {| streakData := streakData b; intervals := intervals b;
     timeouts := timeouts b; handles := handles b; title := title b;
     strokeDashoffset := o; startBtn := startBtn b;
     notifications_granted := notifications_granted b; calls := calls b |}.

Definition with_startBtn (f : ButtonFace) (b : Browser) : Browser :=
  {| streakData := streakData b; intervals := intervals b;
     timeouts := timeouts b; handles := handles b; title := title b;
     strokeDashoffset := strokeDashoffset b; startBtn := f;
     notifications_granted := notifications_granted b; calls := calls b |}.

Definition with_calls (f : list PlatformCall → list PlatformCall)
    (b : Browser) : Browser :=
  {| streakData := streakData b; intervals := intervals b;
     timeouts := timeouts b; handles := handles b; title := title b;
     strokeDashoffset := strokeDashoffset b; startBtn := startBtn b;
     notifications_granted := notifications_granted b;
     calls := f (calls b) |}.

(** ** The monad of the page's methods *)

Module Page.

Definition M (A : Type) : Type := App → Completion A * App.

Definition ret {A} (a : A) : M A := λ s, (Normal a, s).

Definition throw {A} (e : Exn) : M A := λ s, (Throw e, s).

Definition bind {A B} (m : M A) (k : A → M B) : M B :=
  λ s, match m s with
       | (Normal a, s') => k a s'
       | (Throw e, s') => (Throw e, s')
       end.

Definition gets {A} (f : App → A) : M A := λ s, (Normal (f s), s).

Definition modify (f : App → App) : M unit := λ s, (Normal tt, f s).

(** A method of the engine, or a step on the document, run on the world of
    the page. *)
Definition engine {A} (m : JS.M A) : M A :=
  λ s, (fst (m (world s)), with_world (λ _, snd (m (world s))) s).

Definition exec {A} (m : M A) (s : App) : App := snd (m s).
Definition result {A} (m : M A) (s : App) : Completion A := fst (m s).

End Page.

Declare Scope page_scope.
Delimit Scope page_scope with page.
Notation "'let*' x ':=' m 'in' k" := (Page.bind m (λ x, k))
  (at level 10, x name, m at level 100, k at level 200) : page_scope.

Section PagePrimitives.
Local Open Scope page_scope.

(** [setInterval(cb, ms)] and [clearInterval(id)] *)
Definition setInterval (cb : Callback) : Page.M nat :=
  let* id := Page.gets (λ s, S (handles (browser s))) in
  let* _ := Page.modify (with_browser (λ b,
    with_handles id (with_intervals <[id := cb]> b))) in
  Page.ret id.

Definition clearInterval (id : nat) : Page.M unit :=
  Page.modify (with_browser (with_intervals (delete id))).

(** [setTimeout(cb, ms)] *)
Definition setTimeout (cb : Callback) (ms : nat) : Page.M nat :=
  let* id := Page.gets (λ s, S (handles (browser s))) in
  let* _ := Page.modify (with_browser (λ b,
    with_handles id (with_timeouts <[id := (ms, cb)]> b))) in
  Page.ret id.

Definition set_title (t : string) : Page.M unit :=
  Page.modify (with_browser (with_title t)).

Definition set_strokeDashoffset (o : DashOffset) : Page.M unit :=
  Page.modify (with_browser (with_strokeDashoffset o)).

Definition set_startBtn (f : ButtonFace) : Page.M unit :=
  Page.modify (with_browser (with_startBtn f)).

Definition set_streakData (d : StreakData) : Page.M unit :=
  Page.modify (with_browser (with_streakData (Some d))).

Definition platform (c : PlatformCall) : Page.M unit :=
  Page.modify (with_browser (with_calls (λ l, l ++ [c]))).

(** [document.getElementById(id).textContent = text], with no test for
    [null]. *)
Definition write_textContent (id text : string) : Page.M unit :=
  let* el := Page.engine (getElementById id) in
  match el with
  | Some _ =>
      Page.engine (update_element id (λ el,
        {| value := value el; textContent := text;
           classList := classList el |}))
  | None => Page.throw TypeError
  end.

End PagePrimitives.

(** [classList.add(c)] *)
Definition classList_add (c : string) (l : list string) : list string :=
  if decide (c ∈ l) then l else l ++ [c].

(** [s.padStart(2, '0')] *)
Definition padStart2 (s : string) : string :=
  String.concat "" (replicate (2 - String.length s) "0") +:+ s.

(** [n.toString()] of a natural number is [pretty n]. *)
Definition timeString (timeRemaining : nat) : string :=
  let minutes := (timeRemaining / 60)%nat in
  let seconds := (timeRemaining mod 60)%nat in
  padStart2 (pretty minutes) +:+ ":" +:+ padStart2 (pretty seconds).

(** ** [StreakTracker] *)

Module Streak.
Section Streak.
Local Open Scope page_scope.

(** Lines 612-614. *)
Definition updateDisplay : Page.M unit :=
  let* n := Page.gets streak in
  write_textContent "streakCount" (pretty n).

(** Lines 598-610; [today] is [new Date().toDateString()]. *)
Definition incrementStreak (today : string) : Page.M unit :=
  let* stored := Page.gets (λ s, streakData (browser s)) in
  let data := default {| count := 0; lastDate := None |} stored in
  if decide (lastDate data ≠ Some today) then
    let* _ := Page.modify (with_streak S) in
    let* n := Page.gets streak in
    let* _ := set_streakData {| count := n; lastDate := Some today |} in
    updateDisplay
  else Page.ret tt.

End Streak.
End Streak.

(** ** [PomodoroTimer] *)

Module Timer.
Section Timer.
Local Open Scope page_scope.

(** [this.modes] (lines 212-216). *)
Definition modes (m : TimerMode) : Mode :=
  match m with
  | focus => {| duration := 25 * 60; label := "Focus Session" |}
  | short => {| duration := 5 * 60; label := "Short Break" |}
  | long => {| duration := 15 * 60; label := "Long Break" |}
  end.

(** The constructor (lines 211-222). *)
Definition new : PomodoroTimer :=
  {| currentMode := focus;
     timeRemaining := duration (modes focus);
     isRunning := false;
     interval := None;
     totalTime := duration (modes focus) |}.

Definition set_isRunning (b : bool) : Page.M unit :=
  Page.modify (with_timer (with_isRunning b)).

Definition set_interval (i : option nat) : Page.M unit :=
  Page.modify (with_timer (with_interval i)).

Definition set_timeRemaining (n : nat) : Page.M unit :=
  Page.modify (with_timer (with_timeRemaining n)).

Definition set_totalTime (n : nat) : Page.M unit :=
  Page.modify (with_timer (with_totalTime n)).

Definition set_currentMode (m : TimerMode) : Page.M unit :=
  Page.modify (with_timer (with_currentMode m)).

(** Lines 224-229. *)
Definition start : Page.M unit :=
  let* t := Page.gets timer in
  if negb (isRunning t) then
    let* _ := set_isRunning true in
    let* id := setInterval TimerTick in
    set_interval (Some id)
  else Page.ret tt.

(** Lines 231-237. A handle is truthy when it is not 0. *)
Definition pause : Page.M unit :=
  let* _ := set_isRunning false in
  let* t := Page.gets timer in
  match interval t with
  | Some (S id) =>
      let* _ := clearInterval (S id) in
      set_interval None
  | _ => Page.ret tt
  end.

(** The offset of the progress ring (lines 304-306):
    circumference * (1 - (totalTime - timeRemaining) / totalTime). *)
Definition dash_offset (total remaining : nat) : DashOffset :=
  match total with
  | O => if decide (remaining = 0)%nat then NotANumber else Infinite
  | _ => Circumferences
           (1 - (inject_Z (Z.of_nat total) - inject_Z (Z.of_nat remaining))
                / inject_Z (Z.of_nat total))%Q
  end.

(** Lines 295-311. *)
Definition updateDisplay : Page.M unit :=
  let* t := Page.gets timer in
  let text := timeString (timeRemaining t) in
  let* _ := write_textContent "timerDisplay" text in
  let* _ := write_textContent "timerMode" (label (modes (currentMode t))) in
  let offset := dash_offset (totalTime t) (timeRemaining t) in
  let* progress := Page.engine (getElementById "timerProgress") in
  let* _ :=
    match progress with
    | Some _ => set_strokeDashoffset offset
    | None => Page.throw TypeError
    end in
  set_title (text +:+ " - Study Room").

(** Lines 313-329. *)
Definition playNotificationSound : Page.M unit :=
  platform (PlayTone
    {| tone_frequency := 800; tone_type := sine;
       tone_gain_from := 0.3; tone_gain_to := 0.01;
       tone_seconds := 0.2 |}).

(** Lines 331-338. *)
Definition showNotification : Page.M unit :=
  let* granted := Page.gets (λ s, notifications_granted (browser s)) in
  if granted then
    let* t := Page.gets timer in
    platform (ShowNotification "Pomodoro Complete!"
      ("Your " +:+ label (modes (currentMode t)) +:+ " has finished."))
  else Page.ret tt.

(** The messages of [showReward] (lines 341-347). *)
Definition messages : list string :=
  [ "Amazing work! You've completed another session! 🌟";
    "Great job! Your focus is improving! 💪";
    "Excellent! Keep up the momentum! 🚀";
    "Well done! You're building great habits! 🎯";
    "Fantastic! Your dedication is paying off! ⭐" ].

(** Lines 340-360; [random] is what [Math.random()] returns, below 1. *)
Definition showReward (random : Q) : Page.M unit :=
  let* overlay := Page.engine (getElementById "rewardOverlay") in
  let* messageEl := Page.engine (getElementById "rewardMessage") in
  match overlay, messageEl with
  | Some _, Some _ =>
      let n := inject_Z (Z.of_nat (length messages)) in
      let i := Z.to_nat (Qfloor (random * n)) in
      let* _ := write_textContent "rewardMessage" (default "" (messages !! i)) in
      let* _ := Page.engine (update_element "rewardOverlay" (λ el,
        {| value := value el; textContent := textContent el;
           classList := classList_add "show" (classList el) |})) in
      let* _ := setTimeout HideReward 3000 in
      Page.ret tt
  | _, _ => Page.ret tt
  end.

(** Lines 259-278. *)
Definition complete (random : Q) (today : string) : Page.M unit :=
  let* _ := pause in
  let* _ := playNotificationSound in
  let* _ := showNotification in
  let* _ := showReward random in
  let* _ := Page.engine stopAllSounds in
  let* t := Page.gets timer in
  let* _ :=
    if decide (currentMode t = focus) then Streak.incrementStreak today
    else Page.ret tt in
  let* t := Page.gets timer in
  let* _ := set_timeRemaining (totalTime t) in
  updateDisplay.

(** Lines 250-257. *)
Definition tick (random : Q) (today : string) : Page.M unit :=
  let* t := Page.gets timer in
  if bool_decide (0 < timeRemaining t)%nat then
    let* _ := set_timeRemaining (timeRemaining t - 1) in
    updateDisplay
  else complete random today.

(** Lines 239-248. *)
Definition reset : Page.M unit :=
  let* _ := pause in
  let* t := Page.gets timer in
  let* _ := set_timeRemaining (totalTime t) in
  let* _ := updateDisplay in
  Page.engine stopAllSounds.

(** Lines 280-286. *)
Definition setMode (mode : TimerMode) : Page.M unit :=
  let* _ := pause in
  let* _ := set_currentMode mode in
  let* _ := set_totalTime (duration (modes mode)) in
  let* t := Page.gets timer in
  let* _ := set_timeRemaining (totalTime t) in
  updateDisplay.

(** Lines 288-293. *)
Definition setCustomDuration (minutes : nat) : Page.M unit :=
  let* _ := pause in
  let* _ := set_totalTime (minutes * 60) in
  let* t := Page.gets timer in
  let* _ := set_timeRemaining (totalTime t) in
  updateDisplay.

End Timer.
End Timer.

(** ** The buttons and the clock *)

Section PageHandlers.
Local Open Scope page_scope.

(** What [soundMap[soundChoice]] finds (lines 768-777): one of the five
    names for the keys '1' to '5', a truthy value that is no sound name for a
    property every object inherits, and [undefined] otherwise. *)
Inductive Choice : Type :=
| Chosen (n : SoundName)
| Inherited
| Absent.

Definition inherited_keys : list string :=
  [ "constructor"; "__defineGetter__"; "__defineSetter__"; "hasOwnProperty";
    "__lookupGetter__"; "__lookupSetter__"; "isPrototypeOf";
    "propertyIsEnumerable"; "toString"; "valueOf"; "__proto__";
    "toLocaleString" ].

Definition soundMap (soundChoice : string) : Choice :=
  if decide (soundChoice = "1") then Chosen rain
  else if decide (soundChoice = "2") then Chosen alpha
  else if decide (soundChoice = "3") then Chosen theta
  else if decide (soundChoice = "4") then Chosen beta
  else if decide (soundChoice = "5") then Chosen gamma
  else if decide (soundChoice ∈ inherited_keys) then Inherited
  else Absent.

(** The status line written under [if (status)] (lines 780-784). *)
Definition write_status (soundName : SoundName) (isPlaying : bool)
  : Page.M unit :=
  let id := key soundName +:+ "Status" in
  let* status := Page.engine (getElementById id) in
  match status with
  | Some _ =>
      Page.engine (update_element id (λ el,
        {| value := value el;
           textContent := if isPlaying then "Playing" else "";
           classList :=
             classList_toggle "playing" isPlaying (classList el) |}))
  | None => Page.ret tt
  end.

(** The click handler of the start button (lines 736-800); [soundChoice]
    is what [prompt] returns when it is asked, [None] for [null]. *)
Definition startButtonClick (soundChoice : option string) : Page.M unit :=
  let* t := Page.gets timer in
  if isRunning t then
    let* _ := Timer.pause in
    let* _ := Page.engine pauseSounds in
    set_startBtn FaceStart
  else
    let wasPaused := bool_decide (timeRemaining t < totalTime t)%nat in
    if wasPaused then
      let* _ := Timer.start in
      let* _ := Page.engine resumeSounds in
      set_startBtn FacePause
    else
      match soundChoice with
      | Some choice =>
          if decide (choice = "") then Page.ret tt
          else
            let* _ :=
              match soundMap choice with
              | Chosen soundName =>
                  let* isPlaying := Page.engine (toggleSound soundName) in
                  let* _ := write_status soundName isPlaying in
                  Page.engine (set_currentPlayingSound (Some soundName))
              | Inherited =>
                  (* toggleSound on a value that is no key of this.sounds *)
                  let* _ := Page.engine initAudioContext in
                  Page.throw TypeError
              | Absent =>
                  if decide (choice = "0")
                  then Page.engine (set_currentPlayingSound None)
                  else Page.ret tt
              end in
            match soundMap choice with
            | Absent =>
                if decide (choice = "0") then
                  let* _ := Timer.start in
                  set_startBtn FacePause
                else Page.ret tt
            | _ =>
                let* _ := Timer.start in
                set_startBtn FacePause
            end
      | None => Page.ret tt
      end.

(** The click handler of the reset button (lines 802-806). *)
Definition resetButtonClick : Page.M unit :=
  let* _ := Timer.reset in
  set_startBtn FaceStart.

(** The browser runs the callback of an active interval. *)
Definition fire_interval (id : nat) (random : Q) (today : string)
  : Page.M unit :=
  let* cb := Page.gets (λ s, intervals (browser s) !! id) in
  match cb with
  | Some TimerTick => Timer.tick random today
  | _ => Page.ret tt
  end.

End PageHandlers.

(** What can happen to the timer: its methods, as the page calls them, and
    the clock. *)
Inductive TimerEvent : Type :=
| ClickStart (soundChoice : option string)
| ClickReset
| SetMode (mode : TimerMode)
| SetCustomDuration (minutes : nat)
| IntervalFires (id : nat) (random : Q) (today : string).

Definition timer_event (e : TimerEvent) : Page.M unit :=
  match e with
  | ClickStart c => startButtonClick c
  | ClickReset => resetButtonClick
  | SetMode m => Timer.setMode m
  | SetCustomDuration k => Timer.setCustomDuration k
  | IntervalFires id r d => fire_interval id r d
  end.


(** The time left is at most the length of the session. *)
Definition InTime (s : App) : Prop :=
  (timeRemaining (timer s) ≤ totalTime (timer s))%nat.

(** The timer and the intervals of the page: what the countdown is made
    of. A method is [inert] when it leaves both as they are, however it
    completes. *)
Definition clock (s : App) : PomodoroTimer * gmap nat Callback :=
  (timer s, intervals (browser s)).

Definition inert {A} (m : Page.M A) : Prop :=
  ∀ s, clock (Page.exec m s) = clock s.

(** The interval fires once for each entry of [randoms]: how each call of
    [tick()] completes, and the state the last one leaves. *)
Fixpoint ticks (randoms : list Q) (today : string) (s : App)
  : list (Completion unit) * App :=
  match randoms with
  | [] => ([], s)
  | random :: randoms =>
      let (c, s) := Timer.tick random today s in
      let (cs, s) := ticks randoms today s in
      (c :: cs, s)
  end.

(** A sequence of events, from the first. *)
Definition timer_events (es : list TimerEvent) (s : App) : App :=
  foldl (λ s e, Page.exec (timer_event e) s) s es.

(** The page has the three elements [updateDisplay] writes to. *)
Definition has_timer_display (d : Document) : Prop :=
  is_Some (d !! "timerDisplay") ∧
  is_Some (d !! "timerMode") ∧
  is_Some (d !! "timerProgress").

(** ** The timer's methods as functions on the page *)

(** After [start()]. *)
Definition started (s : App) : App :=
  if isRunning (timer s) then s
  else
    let id := S (handles (browser s)) in
    with_timer (with_interval (Some id))
      (with_browser
         (λ b, with_handles id (with_intervals <[id := TimerTick]> b))
         (with_timer (with_isRunning true) s)).

(** After [pause()]. *)
Definition halted (s : App) : App :=
  let s := with_timer (with_isRunning false) s in
  match interval (timer s) with
  | Some (S id) =>
      with_timer (with_interval None)
        (with_browser (with_intervals (delete (S id))) s)
  | _ => s
  end.

(** After [this.timeRemaining = this.totalTime]. *)
Definition rewound (s : App) : App :=
  with_timer (with_timeRemaining (totalTime (timer s))) s.

Definition text_written (id text : string) : Document → Document :=
  alter (λ el, {| value := value el; textContent := text;
                  classList := classList el |}) id.

(** After [updateDisplay()], on a page that has the elements it writes. *)
Definition displayed (s : App) : App :=
  let t := timer s in
  let text := timeString (timeRemaining t) in
  with_browser (with_title (text +:+ " - Study Room"))
    (with_browser
       (with_strokeDashoffset
          (Timer.dash_offset (totalTime t) (timeRemaining t)))
       (with_world
          (with_document
             (text_written "timerMode" (label (Timer.modes (currentMode t)))))
          (with_world (with_document (text_written "timerDisplay" text))
             s))).

(** An invariant is kept by a method when it holds in the state the method
    leaves, however it completes. *)
Definition keeps (I : App → Prop) {A} (m : Page.M A) : Prop :=
  ∀ s, I s → I (Page.exec m s).



(** What [localStorage] holds for the streak, with the default of
    [incrementStreak]. *)
Definition stored_streak (s : App) : StreakData :=
  default {| count := 0; lastDate := None |} (streakData (browser s)).

(** After the assignments of [incrementStreak()], before its
    [updateDisplay()]. *)
Definition streak_stored (today : string) (s : App) : App :=
  with_browser
    (with_streakData
       (Some {| count := S (streak s); lastDate := Some today |}))
    (with_streak S s).

(** After [incrementStreak()], on a page that has the streak counter. *)
Definition streak_counted (today : string) (s : App) : App :=
  if decide (lastDate (stored_streak s) ≠ Some today) then
    with_world
      (with_document (text_written "streakCount" (pretty (S (streak s)))))
      (streak_stored today s)
  else s.



(** A page with the sliders and status lines of [page], the elements of the
    timer and the streak counter. *)
Definition timer_page (volume : SoundName → Z) : Document :=
  list_to_map
    (map (λ id, (id, {| value := 0; textContent := ""; classList := [] |}))
       ["timerDisplay"; "timerMode"; "timerProgress"; "streakCount";
        "rewardOverlay"; "rewardMessage"])
  ∪ page volume.

(** A state of the page used as a concrete input: the engine and the timer
    as their constructors leave them, nothing stored, no interval. *)
Definition loaded (d : Document) (policy : AudioContextState) : App :=
  {| world := fresh d policy;
     timer := Timer.new;
     streak := 0;
     browser :=
       {| streakData := None; intervals := ∅; timeouts := ∅; handles := 0;
          title := ""; strokeDashoffset := Circumferences 0;
          startBtn := FaceStart; notifications_granted := false;
          calls := [] |} |}.

(** The engine's world after the start button has started the sound the
    user chose (lines 778-785). *)
Definition chosen (n : SoundName) (w : World) : World :=
  let isPlaying := negb (playing (sound_of n w)) in
  with_this (with_currentPlayingSound (Some n))
    (with_document
       (status_written n (if isPlaying then "Playing" else "")
                       (classList_toggle "playing" isPlaying))
       (toggled n w)).

(** The answers to the prompt that start the timer. *)
Definition valid_answers : list (option string) :=
  [Some "0"; Some "1"; Some "2"; Some "3"; Some "4"; Some "5"].

(** ** Reading the display *)

(** What a reader of the display takes for the time left: the digits before
    the colon (character 58) as minutes, at least two, and the two after it
    as seconds. *)
Definition read_digit (c : Ascii.ascii) : option nat :=
  let n := Ascii.nat_of_ascii c in
  if (48 <=? n)%nat && (n <=? 57)%nat then Some (n - 48)%nat else None.

Fixpoint read_digits (acc : nat) (s : string) : option nat :=
  match s with
  | EmptyString => Some acc
  | String c s => d ← read_digit c; read_digits (10 * acc + d) s
  end.

Fixpoint split_colon (s : string) : option (string * string) :=
  match s with
  | EmptyString => None
  | String c s =>
      if decide (Ascii.nat_of_ascii c = 58)%nat then Some (EmptyString, s)
      else '(a, b) ← split_colon s; Some (String c a, b)
  end.

Definition read_clock (s : string) : option nat :=
  '(m, sec) ← split_colon s;
  if (String.length sec =? 2)%nat && (2 <=? String.length m)%nat then
    minutes ← read_digits 0 m;
    seconds ← read_digits 0 sec;
    if (seconds <? 60)%nat then Some (60 * minutes + seconds)%nat else None
  else None.

(** * Reasoning about the methods *)

(** ** Laws of the monad, used as the steps of a symbolic execution *)

Section Laws.
Local Open Scope js_scope.
Context {A B C : Type}.

Lemma bind_ret (a : A) (k : A → M B) w : bind (ret a) k w = k a w.
Proof. reflexivity. Qed.

Lemma bind_gets (f : World → A) (k : A → M B) w :
  bind (gets f) k w = k (f w) w.
Proof. reflexivity. Qed.

Lemma bind_modify (f : World → World) (k : unit → M B) w :
  bind (modify f) k w = k tt (f w).
Proof. reflexivity. Qed.

Lemma bind_throw e (k : A → M B) w : bind (throw e) k w = (Throw e, w).
Proof. reflexivity. Qed.

Lemma bind_bind (m : M A) (k1 : A → M B) (k2 : B → M C) w :
  bind (bind m k1) k2 w = bind m (λ x, bind (k1 x) k2) w.
Proof. unfold bind. destruct (m w) as [[a|e] w']; reflexivity. Qed.

(** A step whose outcome is known. *)
Lemma bind_normal (m : M A) (k : A → M B) w a w' :
  m w = (Normal a, w') → bind m k w = k a w'.
Proof. unfold bind. intros ->. reflexivity. Qed.

End Laws.

Lemma alter_heap_end {A} (f : A → A) (h l : list A) k :
  alter f (length h + k) (h ++ l) = h ++ alter f k l.
Proof. apply alter_app_r. Qed.

Lemma lookup_heap_end {A} (h l : list A) k :
  (h ++ l) !! (length h + k)%nat = l !! k.
Proof. rewrite lookup_app_r by lia. f_equal. lia. Qed.

Lemma alter_dangling {A} (f : A → A) (h : list A) r :
  h !! r = None → alter f r h = h.
Proof.
  revert r. induction h as [|x h IH]; intros [|r] Hr; simpl in *;
    try done. f_equal. by apply IH.
Qed.

Lemma alter_agree {A} (f g : A → A) (h : list A) r x :
  h !! r = Some x → f x = g x → alter f r h = alter g r h.
Proof.
  revert r. induction h as [|y h IH]; intros [|r] Hr E; simpl in *;
    try done.
  - injection Hr as ->. by rewrite E.
  - f_equal. by apply IH.
Qed.

Lemma alter_insert {A} (f : A → A) (l : list A) i x :
  alter f i (<[i:=x]> l) = <[i:=f x]> l.
Proof. by rewrite !list_insert_alter, list_alter_alter_eq. Qed.

Lemma connected_nil t n :
  outputs_of n = [] → connected t n = with_outputs [t] n.
Proof.
  unfold connected. intros ->. case_decide; [set_solver|done].
Qed.

#[local] Arguments bind : simpl never.
#[local] Arguments gets : simpl never.
#[local] Arguments modify : simpl never.
#[local] Arguments ret : simpl never.
#[local] Arguments throw : simpl never.
#[local] Arguments Qplus : simpl never.
#[local] Arguments Qmult : simpl never.
#[local] Arguments Qdiv : simpl never.
#[local] Arguments Qopp : simpl never.
#[local] Arguments inject_Z : simpl never.

Ltac js_step :=
  first
    [ rewrite bind_bind
    | rewrite bind_ret
    | rewrite bind_gets
    | rewrite bind_modify
    | rewrite bind_throw ].

(** Updates of an explicit world, computed field by field. *)
Lemma with_heap_mk f e h d a :
  with_heap f {| this := e; heap := h; document := d; autoplay := a |}
  = {| this := e; heap := f h; document := d; autoplay := a |}.
Proof. reflexivity. Qed.

Lemma with_this_mk f e h d a :
  with_this f {| this := e; heap := h; document := d; autoplay := a |}
  = {| this := f e; heap := h; document := d; autoplay := a |}.
Proof. reflexivity. Qed.

Lemma with_document_mk f e h d a :
  with_document f {| this := e; heap := h; document := d; autoplay := a |}
  = {| this := e; heap := h; document := f d; autoplay := a |}.
Proof. reflexivity. Qed.

(** Heaps are kept in the form [h ++ l] with [l] explicit, and references in
    the form [length h + k]. *)
Ltac heap_norm :=
  repeat first
    [ rewrite with_heap_mk
    | rewrite with_this_mk
    | rewrite with_document_mk
    | rewrite <- app_assoc
    | rewrite <- Nat.add_assoc
    | rewrite connected_nil by reflexivity
    | rewrite length_app
    | rewrite alter_heap_end
    | rewrite lookup_heap_end
    | progress cbn ].

Ltac js_run := repeat (js_step || heap_norm).

(** ** The methods complete normally, with the effects above *)

Section Equations.
Local Open Scope js_scope.
Local Open Scope Q_scope.

Lemma initAudioContext_eq w :
  initAudioContext w = (Normal tt, initialised w).
Proof.
  destruct w as [[[[[] k]|] snds cur] h doc []]; reflexivity.
Qed.

Lemma getVolume_eq n w : getVolume n w = (Normal (volume_of n (document w)), w).
Proof.
  unfold getVolume, getElementById, volume_of. js_run.
  destruct (document w !! _); reflexivity.
Qed.

Lemma createRainSound_eq n w c :
  audioContext (this w) = Some c →
  createRainSound n w =
    (Normal tt,
     {| this := with_sounds (update_sound n (λ s,
                  {| playing := playing s;
                     nodes := nodes s ++ graph_refs rain (length (heap w)) |}))
                  (this w);
        heap := heap w ++ graph rain (document w) (length (heap w));
        document := document w;
        autoplay := autoplay w |}).
Proof.
  destruct w as [[ctx snds cur] h0 doc ap]. cbn. intros ->.
  assert (E : h0 = (h0 ++ [])%list) by (by rewrite app_nil_r).
  revert E. generalize h0 at 1 3 as h. intros h ->.
  unfold createRainSound.
  rewrite (bind_normal _ _ _ _ _ (getVolume_eq _ _)).
  unfold createGain, createScriptProcessor, create,
    the_audioContext, connect, push_nodes, update.
  js_run. unfold modify. js_run.
  rewrite !Nat.add_0_r. reflexivity.
Qed.

Lemma createBinauralBeat_eq n f w c :
  audioContext (this w) = Some c →
  createBinauralBeat n f w =
    (Normal tt,
     {| this := with_sounds (update_sound n (λ s,
                  {| playing := playing s;
                     nodes := nodes s ++
                              graph_refs alpha (length (heap w)) |}))
                  (this w);
        heap := heap w ++
                beat_graph
                  (volume_of (if decide (n = alpha) then alpha else theta)
                             (document w))
                  f (length (heap w));
        document := document w;
        autoplay := autoplay w |}).
Proof.
  destruct w as [[ctx snds cur] h0 doc ap]. cbn. intros ->.
  assert (E : h0 = (h0 ++ [])%list) by (by rewrite app_nil_r).
  revert E. generalize h0 at 1 3 as h. intros h ->.
  unfold createBinauralBeat.
  rewrite (bind_normal _ _ _ _ _ (getVolume_eq _ _)).
  unfold createGain, createOscillator, createStereoPanner, create,
    the_audioContext, connect, start, call, push_nodes, update.
  js_run. unfold modify. js_run.
  rewrite !Nat.add_0_r. reflexivity.
Qed.

Lemma playSound_eq n w : playSound n w = (Normal tt, played n w).
Proof.
  unfold playSound.
  rewrite (bind_normal _ _ _ _ _ (initAudioContext_eq w)).
  assert (Hc : audioContext (this (initialised w)) = Some (ensured w))
    by reflexivity.
  destruct n;
    [ rewrite (bind_normal _ _ _ _ _ (createRainSound_eq _ _ _ Hc))
    | rewrite (bind_normal _ _ _ _ _ (createBinauralBeat_eq _ _ _ _ Hc)).. ];
    reflexivity.
Qed.


Lemma bind_try_ignore {B} (m : M unit) (k : unit → M B) w :
  bind (try_ignore m) k w = k tt (snd (m w)).
Proof. reflexivity. Qed.

(** [stop()] on a node: accepted or refused, the node ends as
    [default n (stop_node n)]. *)
Lemma stop_world r e h doc ap nd :
  h !! r = Some nd →
  snd (stop r {| this := e; heap := h; document := doc; autoplay := ap |})
  = {| this := e; heap := alter (λ n, default n (stop_node n)) r h;
       document := doc; autoplay := ap |}.
Proof.
  intros Hr. unfold stop, call, update. js_run. rewrite Hr. cbn.
  destruct (stop_node nd) as [nd'|] eqn:Hn.
  - unfold modify. js_run. cbn. f_equal.
    apply (alter_agree _ _ _ _ nd Hr). by rewrite Hn.
  - unfold throw. cbn. f_equal. symmetry.
    rewrite (alter_agree _ id _ _ nd Hr) by (by rewrite Hn).
    by apply list_alter_id.
Qed.

(** The loop of [stopSound]: each node is released, nothing is thrown. *)
Lemma stop_nodes_eq refs w :
  forEach refs (λ node,
    let* s := node_has has_stop node in
    let* _ := if s then try_ignore (stop node) else ret tt in
    let* d := node_has (λ _, true) node in
    if d then disconnect node else ret tt) w
  = (Normal tt, with_heap (release refs) w).
Proof.
  revert w. induction refs as [|r refs IH]; intros w.
  { destruct w; reflexivity. }
  cbn [forEach].
  rewrite (bind_normal _ _ _ tt (with_heap (alter released r) w)).
  { rewrite IH. destruct w; reflexivity. }
  destruct w as [e h doc ap].
  unfold node_has, disconnect, update.
  js_run.
  destruct (h !! r) as [nd|] eqn:Hr; cbn.
  - destruct (has_stop nd) eqn:Hs.
    + rewrite bind_try_ignore, (stop_world _ _ _ _ _ nd Hr).
      js_run. rewrite list_lookup_alter_eq, Hr. cbn. unfold modify. js_run.
      rewrite list_alter_alter_eq. reflexivity.
    + js_run. rewrite Hr. cbn. unfold modify. js_run.
      do 2 f_equal. apply (alter_agree _ _ _ _ nd Hr). by destruct nd.
  - js_run. rewrite Hr. cbn. unfold ret. by rewrite alter_dangling.
Qed.

Lemma stopSound_eq n w : stopSound n w = (Normal tt, stopped n w).
Proof.
  unfold stopSound. js_run.
  rewrite (bind_normal _ _ _ _ _ (stop_nodes_eq _ _)).
  unfold set_nodes, set_playing. js_run.
  destruct w as [[ctx snds cur] h doc ap]. unfold modify. js_run.
  unfold stopped. by destruct n.
Qed.

Lemma toggleSound_eq n w :
  toggleSound n w = (Normal (negb (playing (sound_of n w))), toggled n w).
Proof.
  unfold toggleSound, toggled.
  rewrite (bind_normal _ _ _ _ _ (initAudioContext_eq w)).
  js_run.
  replace (sound_of n (initialised w)) with (sound_of n w) by (by destruct w).
  destruct (playing (sound_of n w)) eqn:Hp.
  - rewrite (bind_normal _ _ _ _ _ (stopSound_eq _ _)). js_run.
    destruct w as [[ctx snds cur] h doc ap]. by destruct n.
  - rewrite (bind_normal _ _ _ _ _ (playSound_eq _ _)). js_run.
    destruct w as [[ctx snds cur] h doc ap]. by destruct n.
Qed.

(** A loop whose body completes normally is the fold of its effect. *)
Lemma forEach_normal {A} (l : list A) (f : A → M unit)
    (g : A → World → World) :
  (∀ x w, f x w = (Normal tt, g x w)) →
  ∀ w, forEach l f w = (Normal tt, foldl (λ w x, g x w) w l).
Proof.
  intros Hf. induction l as [|x l IH]; intros w; cbn [forEach foldl].
  - reflexivity.
  - by rewrite (bind_normal _ _ _ _ _ (Hf x w)).
Qed.

Lemma setVolume_eq n v w : setVolume n v w = (Normal tt, volume_set n v w).
Proof.
  unfold setVolume, volume_set, multiplier. js_run.
  destruct (playing (sound_of n w) &&
            bool_decide (0 < length (nodes (sound_of n w)))%nat) eqn:Hc;
    [|reflexivity].
  apply andb_prop in Hc as [_ Hlen%bool_decide_eq_true].
  destruct (lookup_lt_is_Some_2 (nodes (sound_of n w))
              (length (nodes (sound_of n w)) - 1)) as [r Hr]; [lia|].
  rewrite Hr. unfold node_has, update. js_run.
  destruct (from_option has_gain false (heap w !! r)); reflexivity.
Qed.

Lemma clear_status_eq n w :
  clear_status n w = (Normal tt, with_document (status_cleared n) w).
Proof.
  unfold clear_status, getElementById, update_element, status_cleared,
    status_written.
  js_run. destruct w as [e h doc ap]; unfold with_document; cbn.
  destruct (doc !! (key n +:+ "Status")); reflexivity.
Qed.

Lemma stopAllSounds_eq w : stopAllSounds w = (Normal tt, all_stopped w).
Proof.
  assert (Hstep : ∀ n w,
    (let* sound := gets (sound_of n) in
     if playing sound then
       let* _ := stopSound n in clear_status n
     else ret tt) w = (Normal tt, stop_step n w)).
  { intros n w'. unfold stop_step. js_run.
    destruct (playing (sound_of n w')); [|reflexivity].
    rewrite (bind_normal _ _ _ _ _ (stopSound_eq _ _)).
    apply clear_status_eq. }
  unfold stopAllSounds, all_stopped.
  rewrite (bind_normal _ _ _ _ _ (forEach_normal _ _ _ Hstep _)).
  reflexivity.
Qed.

Lemma pauseSounds_eq w : pauseSounds w = (Normal tt, paused w).
Proof.
  assert (Hstep : ∀ n w,
    (let* sound := gets (sound_of n) in
     if playing sound then
       let* _ := set_currentPlayingSound (Some n) in
       let* _ := stopSound n in clear_status n
     else ret tt) w = (Normal tt, pause_step n w)).
  { intros n w'. unfold pause_step, set_currentPlayingSound. js_run.
    destruct (playing (sound_of n w')); [|reflexivity].
    js_run.
    rewrite (bind_normal _ _ _ _ _ (stopSound_eq _ _)).
    apply clear_status_eq. }
  unfold pauseSounds, paused. by apply forEach_normal.
Qed.

Lemma resumeSounds_eq w : resumeSounds w = (Normal tt, resumed w).
Proof.
  unfold resumeSounds, resumed. js_run.
  destruct (currentPlayingSound (this w)) as [n|]; [|reflexivity].
  rewrite (bind_normal _ _ _ _ _ (toggleSound_eq _ _)).
  unfold getElementById, update_element, status_written. js_run.
  destruct (toggled n w) as [e h doc ap]; unfold with_document; cbn.
  destruct (doc !! (key n +:+ "Status")); reflexivity.
Qed.

Lemma perform_normal op w : result (perform op) w = Normal tt.
Proof.
  unfold result.
  destruct op; cbn [perform];
    rewrite ?playSound_eq, ?stopSound_eq, ?setVolume_eq, ?stopAllSounds_eq,
      ?pauseSounds_eq, ?resumeSounds_eq; try reflexivity.
  by rewrite (bind_normal _ _ _ _ _ (toggleSound_eq _ _)).
Qed.
End Equations.

(** ** Frame properties: what each effect leaves alone *)

Section Frames.

Lemma sound_at_update d n f s :
  sound_at d (update_sound n f s)
  = if decide (d = n) then f (sound_at d s) else sound_at d s.
Proof. by destruct d, n. Qed.

Lemma sound_of_initialised d w : sound_of d (initialised w) = sound_of d w.
Proof. reflexivity. Qed.

Lemma sound_of_with_document d f w :
  sound_of d (with_document f w) = sound_of d w.
Proof. reflexivity. Qed.

Lemma sound_of_with_heap d f w : sound_of d (with_heap f w) = sound_of d w.
Proof. reflexivity. Qed.

Lemma sound_of_stopped d n w :
  sound_of d (stopped n w)
  = if decide (d = n) then {| playing := false; nodes := [] |}
    else sound_of d w.
Proof. unfold sound_of, stopped. cbn. apply sound_at_update. Qed.

Lemma sound_of_played d n w :
  sound_of d (played n w)
  = if decide (d = n)
    then {| playing := true;
            nodes := nodes (sound_of n w)
                     ++ graph_refs n (length (heap w)) |}
    else sound_of d w.
Proof.
  unfold sound_of, played, marked, constructed. cbn.
  rewrite !sound_at_update. by case_decide; subst.
Qed.

Lemma sound_of_toggled d n w :
  sound_of d (toggled n w)
  = if decide (d = n)
    then (if playing (sound_of n w)
          then {| playing := false; nodes := [] |}
          else {| playing := true;
                  nodes := nodes (sound_of n w)
                           ++ graph_refs n (length (heap w)) |})
    else sound_of d w.
Proof.
  unfold toggled. destruct (playing (sound_of n w)).
  - by rewrite sound_of_stopped.
  - by rewrite sound_of_played.
Qed.

Lemma sound_of_volume_set d n v w :
  sound_of d (volume_set n v w) = sound_of d w.
Proof.
  unfold volume_set.
  repeat (case_match; try reflexivity).
Qed.

Lemma sound_of_stop_step d n w :
  sound_of d (stop_step n w)
  = if decide (d = n)
    then (if playing (sound_of n w)
          then {| playing := false; nodes := [] |} else sound_of n w)
    else sound_of d w.
Proof.
  unfold stop_step. destruct (playing (sound_of n w)) eqn:Hp.
  - by rewrite sound_of_with_document, sound_of_stopped.
  - by case_decide; subst.
Qed.

Lemma sound_of_pause_step d n w :
  sound_of d (pause_step n w)
  = if decide (d = n)
    then (if playing (sound_of n w)
          then {| playing := false; nodes := [] |} else sound_of n w)
    else sound_of d w.
Proof.
  unfold pause_step. destruct (playing (sound_of n w)) eqn:Hp.
  - by rewrite sound_of_with_document, sound_of_stopped.
  - by case_decide; subst.
Qed.

Lemma current_toggled n w :
  currentPlayingSound (this (toggled n w)) = currentPlayingSound (this w).
Proof. unfold toggled. by destruct (playing (sound_of n w)). Qed.

Lemma current_pause_step n w :
  currentPlayingSound (this (pause_step n w))
  = if playing (sound_of n w) then Some n
    else currentPlayingSound (this w).
Proof. unfold pause_step. by destruct (playing (sound_of n w)). Qed.

(** After a pause no channel is playing. *)
Lemma playing_paused d w : playing (sound_of d (paused w)) = false.
Proof.
  unfold paused, sound_keys. cbn [foldl].
  rewrite !sound_of_pause_step.
  destruct d; cbn; repeat (case_match; try reflexivity; try congruence).
Qed.

End Frames.

Section PauseResume.

Lemma current_paused_single n w :
  playing (sound_of n w) = true →
  (∀ d, d ≠ n → playing (sound_of d w) = false) →
  currentPlayingSound (this (paused w)) = Some n.
Proof.
  intros Hn Hd.
  assert (H : ∀ d, playing (sound_of d w) = bool_decide (d = n)).
  { intros d. case_bool_decide; subst; auto. }
  unfold paused, sound_keys. cbn [foldl].
  rewrite !current_pause_step, !sound_of_pause_step.
  repeat first [ rewrite decide_True by reflexivity
               | rewrite decide_False by discriminate ].
  rewrite !H. destruct n; reflexivity.
Qed.

Lemma current_paused_silent w :
  (∀ d, playing (sound_of d w) = false) → paused w = w.
Proof.
  intros H. unfold paused, sound_keys. cbn [foldl].
  unfold pause_step. by rewrite !H.
Qed.

End PauseResume.

(** ** Worked examples *)

Section Examples.
Local Open Scope Q_scope.

(** Rain started on a fresh engine, the browser handing out a suspended
    context: one resume request per [initAudioContext], two nodes. *)
Example rain_started :
  let w := exec (toggleSound rain) (fresh (page (λ _, 70%Z)) suspended) in
  audioContext (this w) = Some {| state := suspended; resume_requests := 2 |} ∧
  heap w = [ GainNode (inject_Z 70 / 100 * 0.3) [Destination];
             ScriptProcessorNode 4096 (Some 0) [Node 0] ] ∧
  sound_of rain w = {| playing := true; nodes := [1; 0]%nat |}.
Proof. vm_compute. repeat split. Qed.

(** A stop releases every node of the channel: the oscillators are
    stopped and nothing stays connected. *)
Example alpha_started_and_stopped :
  let w := exec (toggleSound alpha)
             (exec (toggleSound alpha) (fresh (page (λ _, 70%Z)) running)) in
  heap w = [ GainNode (inject_Z 70 / 100 * 0.2) [];
             OscillatorNode 200 sine true true [];
             OscillatorNode 210 sine true true [];
             StereoPannerNode (-1) [];
             StereoPannerNode 1 [] ] ∧
  sound_of alpha w = {| playing := false; nodes := [] |}.
Proof. vm_compute. repeat split. Qed.

(** [setVolume] on a playing channel rewrites the gain of its gain stage,
    with the attenuation of the channel. *)
Example volume_of_playing_rain :
  let w := exec (toggleSound rain) (fresh (page (λ _, 70%Z)) running) in
  gain_stage rain w = Some (inject_Z 70 / 100 * 0.3) ∧
  gain_stage rain (exec (setVolume rain 40) w) = Some (40 / 100 * 0.3).
Proof. vm_compute. repeat split. Qed.

(** With two channels playing, a pause remembers the one iterated last,
    and the resume restarts that one only. *)
Example pause_with_two_playing :
  let w := exec (toggleSound beta)
             (exec (toggleSound rain) (fresh (page (λ _, 70%Z)) running)) in
  let w' := exec resumeSounds (exec pauseSounds w) in
  currentPlayingSound (this (exec pauseSounds w)) = Some beta ∧
  playing (sound_of rain w') = false ∧
  playing (sound_of beta w') = true.
Proof. vm_compute. repeat split. Qed.

(** Two samples of the handler, both draws of [Math.random()] being 1. *)
Example two_samples :
  Rain.onaudioprocess 2 (λ _, 1) 0 [0; 0]
  = (let y1 := Rain.filter 0 1 in
     let y2 := Rain.filter y1 1 in
     (y2, [y1 * 3.5; y2 * 3.5])).
Proof. reflexivity. Qed.

End Examples.

(** * The claims of the specification *)

(** C2. In a state where exactly one channel is playing, [pauseSounds]
    followed by [resumeSounds] completes normally and leaves that channel
    playing and every other channel stopped. *)
Theorem pause_then_resume_restores_single (w : World) (n : SoundName) :
  playing (sound_of n w) = true →
  (∀ d, d ≠ n → playing (sound_of d w) = false) →
  let w1 := exec pauseSounds w in
  let w2 := exec resumeSounds w1 in
  result pauseSounds w = Normal tt ∧
  result resumeSounds w1 = Normal tt ∧
  playing (sound_of n w2) = true ∧
  ∀ d, d ≠ n → playing (sound_of d w2) = false.
Proof.
  intros Hn Hd. unfold exec, result.
  rewrite pauseSounds_eq. cbn [fst snd].
  rewrite resumeSounds_eq. cbn [fst snd].
  split; [reflexivity|]. split; [reflexivity|].
  unfold resumed. rewrite (current_paused_single n w Hn Hd).
  split.
  - rewrite sound_of_with_document, sound_of_toggled, playing_paused.
    by rewrite decide_True.
  - intros d Hne.
    rewrite sound_of_with_document, sound_of_toggled.
    rewrite decide_False by done. apply playing_paused.
Qed.

Lemma pause_then_resume_restores_single_witness :
  let w := exec (toggleSound alpha) (fresh (page (λ _, 70%Z)) suspended) in
  playing (sound_of alpha w) = true ∧
  (∀ d, d ≠ alpha → playing (sound_of d w) = false) ∧
  playing (sound_of alpha (exec resumeSounds (exec pauseSounds w))) = true ∧
  playing (sound_of rain (exec resumeSounds (exec pauseSounds w))) = false.
Proof.
  intros w.
  assert (Hn : playing (sound_of alpha w) = true) by (vm_compute; reflexivity).
  assert (Hd : ∀ d, d ≠ alpha → playing (sound_of d w) = false).
  { intros [] Hne; try (vm_compute; reflexivity). by destruct Hne. }
  destruct (pause_then_resume_restores_single w alpha Hn Hd)
    as (_ & _ & Hafter & Hothers).
  refine (conj Hn (conj Hd (conj Hafter (Hothers rain _)))). discriminate.
Defined.

(** [resumeSounds] toggles the remembered channel, whatever its state. *)
Lemma resume_toggles_remembered w n :
  currentPlayingSound (this w) = Some n →
  playing (sound_of n (exec resumeSounds w)) = negb (playing (sound_of n w)).
Proof.
  intros Hc. unfold exec. rewrite resumeSounds_eq. cbn [snd].
  unfold resumed. rewrite Hc.
  rewrite sound_of_with_document, sound_of_toggled, decide_True by done.
  by destruct (playing (sound_of n w)).
Qed.

(** C3. [resumeSounds] toggles the remembered channel; it does not start
    it. In the session [rain_restarted_while_paused] rain is remembered and
    already playing, and the call completes normally with rain stopped. *)
Theorem resume_stops_remembered_channel_that_is_playing :
  currentPlayingSound (this rain_restarted_while_paused) = Some rain ∧
  playing (sound_of rain rain_restarted_while_paused) = true ∧
  result resumeSounds rain_restarted_while_paused = Normal tt ∧
  playing (sound_of rain (exec resumeSounds rain_restarted_while_paused))
  = false ∧
  playing (sound_of rain (exec (playSound rain) rain_restarted_while_paused))
  = true.
Proof. vm_compute. repeat split. Qed.

(** C4. From any state, also one with several channels playing,
    [stopAllSounds] completes normally, leaves no channel playing and
    forgets the last played channel; a [resumeSounds] that follows completes
    normally and leaves the whole world as it is. *)
Theorem stopAll_stops_everything_and_resume_is_noop (w : World) :
  let w1 := exec stopAllSounds w in
  result stopAllSounds w = Normal tt ∧
  (∀ n, playing (sound_of n w1) = false) ∧
  currentPlayingSound (this w1) = None ∧
  resumeSounds w1 = (Normal tt, w1).
Proof.
  unfold exec, result. rewrite stopAllSounds_eq. cbn [fst snd].
  split; [reflexivity|]. split; [|split].
  - intros n. unfold all_stopped, sound_keys. cbn [foldl].
    change (sound_of n (with_this ?f ?w)) with (sound_of n w).
    rewrite !sound_of_stop_step.
    destruct n;
      repeat first [ rewrite decide_True by reflexivity
                   | rewrite decide_False by discriminate ];
      repeat (case_match; try reflexivity; try congruence).
  - reflexivity.
  - rewrite resumeSounds_eq. reflexivity.
Qed.

(** C8. On a channel that is not playing, two calls of [toggleSound] in
    succession return [true] and then [false], and leave the channel
    stopped: not playing, with an empty node list. *)
Theorem toggle_twice_returns_true_then_false (w : World) (n : SoundName) :
  playing (sound_of n w) = false →
  let w1 := exec (toggleSound n) w in
  let w2 := exec (toggleSound n) w1 in
  result (toggleSound n) w = Normal true ∧
  result (toggleSound n) w1 = Normal false ∧
  playing (sound_of n w2) = false ∧
  nodes (sound_of n w2) = [].
Proof.
  intros Hp. unfold exec, result.
  rewrite toggleSound_eq. cbn [fst snd].
  rewrite toggleSound_eq. cbn [fst snd].
  rewrite !sound_of_toggled, !decide_True by reflexivity.
  rewrite Hp. cbn [negb playing nodes]. by repeat split.
Qed.

Lemma toggle_twice_returns_true_then_false_witness :
  let w := fresh (page (λ _, 70%Z)) running in
  playing (sound_of gamma w) = false ∧
  result (toggleSound gamma) w = Normal true ∧
  result (toggleSound gamma) (exec (toggleSound gamma) w) = Normal false ∧
  nodes (sound_of gamma
           (exec (toggleSound gamma) (exec (toggleSound gamma) w))) = [].
Proof.
  intros w.
  assert (Hp : playing (sound_of gamma w) = false) by reflexivity.
  destruct (toggle_twice_returns_true_then_false w gamma Hp)
    as (H1 & H2 & _ & H4).
  exact (conj Hp (conj H1 (conj H2 H4))).
Defined.

Section InvariantPreserved.

Lemma graph_refs_nonempty n base : graph_refs n base ≠ [].
Proof. by destruct n. Qed.

Lemma consistent_silent : consistent {| playing := false; nodes := [] |}.
Proof. split; cbn; [discriminate|congruence]. Qed.

Lemma consistent_sounding l n base :
  consistent {| playing := true; nodes := l ++ graph_refs n base |}.
Proof.
  split; cbn; [|reflexivity]. intros _ [_ H]%app_eq_nil.
  by apply (graph_refs_nonempty n base).
Qed.

Lemma Invariant_stopped n w : Invariant w → Invariant (stopped n w).
Proof.
  intros H d. rewrite sound_of_stopped.
  case_decide; [apply consistent_silent|apply H].
Qed.

Lemma Invariant_played n w : Invariant w → Invariant (played n w).
Proof.
  intros H d. rewrite sound_of_played.
  case_decide; [apply consistent_sounding|apply H].
Qed.

Lemma Invariant_toggled n w : Invariant w → Invariant (toggled n w).
Proof.
  intros H. unfold toggled. destruct (playing (sound_of n w)).
  - by apply Invariant_stopped.
  - by apply Invariant_played.
Qed.

Lemma Invariant_stop_step n w : Invariant w → Invariant (stop_step n w).
Proof.
  intros H. unfold stop_step. destruct (playing (sound_of n w)); [|done].
  by apply (Invariant_stopped n w) in H.
Qed.

Lemma Invariant_pause_step n w : Invariant w → Invariant (pause_step n w).
Proof.
  intros H. unfold pause_step. destruct (playing (sound_of n w)); [|done].
  by apply (Invariant_stopped n
              (with_this (with_currentPlayingSound (Some n)) w)).
Qed.

Lemma Invariant_perform op w :
  Invariant w → Invariant (exec (perform op) w).
Proof.
  intros H. unfold exec.
  destruct op as [n|n|n|n v| | |]; cbn [perform].
  - rewrite (bind_normal _ _ _ _ _ (toggleSound_eq _ _)).
    by apply Invariant_toggled.
  - rewrite playSound_eq. by apply Invariant_played.
  - rewrite stopSound_eq. by apply Invariant_stopped.
  - rewrite setVolume_eq. intros d. cbn [snd].
    rewrite sound_of_volume_set. apply H.
  - rewrite stopAllSounds_eq. cbn [snd]. unfold all_stopped, sound_keys.
    cbn [foldl]. by do 5 apply Invariant_stop_step.
  - rewrite pauseSounds_eq. cbn [snd]. unfold paused, sound_keys.
    cbn [foldl]. by do 5 apply Invariant_pause_step.
  - rewrite resumeSounds_eq. cbn [snd]. unfold resumed.
    destruct (currentPlayingSound (this w)); [|done].
    by apply (Invariant_toggled s w) in H.
Qed.

Lemma stopped_idempotent n w : stopped n (stopped n w) = stopped n w.
Proof.
  destruct w as [[ctx snds cur] h doc ap]. by destruct n.
Qed.

End InvariantPreserved.

(** C5. The channel invariant, playing exactly when the node list is
    non-empty: [playSound] completes normally and leaves the channel playing
    with a non-empty node list; [stopSound] completes normally and leaves it
    not playing with an empty node list; a second [stopSound] changes
    nothing; the invariant holds after the constructor and every operation
    of the engine preserves it, for all channels at once. *)
Theorem playing_iff_nodes_nonempty :
  (∀ w n, let w' := exec (playSound n) w in
          result (playSound n) w = Normal tt ∧
          playing (sound_of n w') = true ∧ nodes (sound_of n w') ≠ []) ∧
  (∀ w n, let w' := exec (stopSound n) w in
          result (stopSound n) w = Normal tt ∧
          playing (sound_of n w') = false ∧ nodes (sound_of n w') = []) ∧
  (∀ w n, exec (stopSound n) (exec (stopSound n) w) = exec (stopSound n) w) ∧
  (∀ d policy, Invariant (fresh d policy)) ∧
  (∀ w op, Invariant w →
           result (perform op) w = Normal tt ∧
           Invariant (exec (perform op) w)).
Proof.
  split; [|split; [|split; [|split]]].
  - intros w n. unfold exec, result. rewrite playSound_eq. cbn [fst snd].
    rewrite sound_of_played, decide_True by done. cbn.
    split; [done|]. split; [done|].
    intros [_ H]%app_eq_nil. by apply graph_refs_nonempty in H.
  - intros w n. unfold exec, result. rewrite stopSound_eq. cbn [fst snd].
    by rewrite sound_of_stopped, decide_True.
  - intros w n. unfold exec. rewrite !stopSound_eq. cbn [snd].
    apply stopped_idempotent.
  - intros d policy n. destruct n; apply consistent_silent.
  - intros w op H. split.
    + apply perform_normal.
    + by apply Invariant_perform.
Qed.

Lemma playing_iff_nodes_nonempty_witness :
  let w := exec (toggleSound theta) (fresh (page (λ _, 70%Z)) running) in
  Invariant w ∧
  Invariant (exec (perform PauseSounds) w) ∧
  nodes (sound_of theta w) = [1; 2; 3; 4; 0]%nat ∧
  nodes (sound_of theta (exec (perform PauseSounds) w)) = [].
Proof.
  intros w.
  destruct playing_iff_nodes_nonempty as (_ & _ & _ & _ & Hop).
  assert (Hw : Invariant w).
  { intros []; vm_compute; split; congruence. }
  destruct (Hop w PauseSounds Hw) as [_ Hafter].
  refine (conj Hw (conj Hafter (conj _ _))); vm_compute; reflexivity.
Defined.

Section GainStage.
Local Open Scope Q_scope.

Lemma heap_played n w :
  heap (played n w)
  = (heap w ++ graph n (document w) (length (heap w)))%list.
Proof. reflexivity. Qed.

(** The gain a start gives the gain stage: the attenuation times the
    hundredth of the slider that the construction consults. *)
Lemma gain_stage_played n w :
  gain_stage n (exec (playSound n) w)
  = Some (inject_Z (volume_of (volume_source n) (document w)) / 100
          * multiplier n).
Proof.
  unfold exec. rewrite playSound_eq. cbn [snd]. unfold gain_stage.
  rewrite sound_of_played, decide_True by done. cbn [nodes].
  rewrite heap_played.
  destruct n; cbn [graph_refs];
    rewrite last_app_cons; cbn [last mbind option_bind];
    rewrite <- (Nat.add_0_r (length (heap w))) at 1;
    rewrite lookup_heap_end; reflexivity.
Qed.

(** [setVolume] on a channel that is not playing: nothing happens. *)
Lemma setVolume_stopped n v w :
  playing (sound_of n w) = false → setVolume n v w = (Normal tt, w).
Proof.
  intros Hp. rewrite setVolume_eq. unfold volume_set. by rewrite Hp.
Qed.

End GainStage.

(** C1. The gain of a binaural channel at start is 0.2 times the hundredth
    of a slider value, but for beta (and gamma) the slider read is theta's,
    not the channel's own: with beta's slider at 30 and theta's at 90, a
    start of beta gives its gain stage 0.2 * 90/100, not 0.2 * 30/100. *)
Theorem beta_gain_is_read_from_theta_slider :
  let d := page sliders_30_90 in
  let w := exec (playSound beta) (fresh d running) in
  volume_of beta d = 30%Z ∧
  volume_of theta d = 90%Z ∧
  result (playSound beta) (fresh d running) = Normal tt ∧
  ∃ g, gain_stage beta w = Some g ∧
       (g == 0.2 * (inject_Z 90 / 100))%Q ∧
       ¬ (g == 0.2 * (inject_Z 30 / 100))%Q.
Proof.
  cbv zeta. split; [by vm_compute|]. split; [by vm_compute|].
  split; [by vm_compute|].
  rewrite gain_stage_played. eexists. split; [reflexivity|].
  split; by vm_compute.
Qed.

(** C7. Starting a binaural channel with beat frequency [f] completes
    normally and adds exactly five nodes to the graph: the gain stage, two
    started sine oscillators at 200 and 200 + f, the first feeding a panner
    at -1 and the second a panner at +1, both panners feeding the gain
    stage. The difference of the two frequencies is [f]. *)
Theorem binaural_beat_oscillators (w : World) (n : SoundName) (f : Q) :
  beat_frequency n = Some f →
  let base := length (heap w) in
  let w' := exec (playSound n) w in
  result (playSound n) w = Normal tt ∧
  (∃ g, heap w' =
     heap w ++
     [ GainNode g [Destination];
       OscillatorNode 200 sine true false [Node (base + 3)];
       OscillatorNode (200 + f) sine true false [Node (base + 4)];
       StereoPannerNode (-1) [Node base];
       StereoPannerNode 1 [Node base] ]) ∧
  nodes (sound_of n w')
  = nodes (sound_of n w) ++ [base + 1; base + 2; base + 3; base + 4; base] ∧
  length (filter (λ nd, is_oscillator nd = true) (drop base (heap w'))) = 2 ∧
  ((200 + f) - 200 == f)%Q.
Proof.
  intros Hf. unfold exec, result. rewrite playSound_eq. cbn [fst snd].
  split; [reflexivity|].
  rewrite sound_of_played, decide_True by done. cbn [nodes].
  rewrite heap_played. unfold graph. rewrite Hf.
  split; [eexists; reflexivity|].
  split; [by destruct n|].
  split; [|ring].
  by rewrite drop_app_length.
Qed.

Lemma binaural_beat_oscillators_witness :
  let w := fresh (page (λ _, 70%Z)) running in
  beat_frequency alpha = Some 10%Q ∧
  heap (exec (playSound alpha) w) =
    [ GainNode (inject_Z 70 / 100 * 0.2) [Destination];
      OscillatorNode 200 sine true false [Node 3];
      OscillatorNode 210 sine true false [Node 4];
      StereoPannerNode (-1) [Node 0];
      StereoPannerNode 1 [Node 0] ] ∧
  nodes (sound_of alpha (exec (playSound alpha) w)) = [1; 2; 3; 4; 0]%nat.
Proof.
  intros w.
  assert (Hf : beat_frequency alpha = Some 10%Q) by reflexivity.
  destruct (binaural_beat_oscillators w alpha 10%Q Hf)
    as (_ & [g Hheap] & Hnodes & _ & _).
  split; [exact Hf|]. split; [|exact Hnodes].
  vm_compute. reflexivity.
Defined.

(** C9. [setVolume] on a channel that is not playing completes normally
    and changes nothing, but the percent is not what the next start of beta
    (or gamma) uses: with beta's slider and the percent at 30 and theta's
    slider at 90, the gain stage of beta starts at 0.2 * 90/100. *)
Theorem setVolume_percent_of_stopped_beta_is_not_used :
  let w := fresh (page sliders_30_90) running in
  playing (sound_of beta w) = false ∧
  volume_of beta (document w) = 30%Z ∧
  setVolume beta 30 w = (Normal tt, w) ∧
  ∃ g, gain_stage beta
         (exec (toggleSound beta) (exec (setVolume beta 30) w)) = Some g ∧
       (g == 0.2 * (inject_Z 90 / 100))%Q ∧
       ¬ (g == 0.2 * (30 / 100))%Q.
Proof.
  cbv zeta. split; [reflexivity|]. split; [by vm_compute|].
  split; [by apply setVolume_stopped|].
  eexists. split; [vm_compute; reflexivity|]. split; by vm_compute.
Qed.

(** C10. The last played channel is kept when nothing is playing at a
    pause, and by every [toggleSound]; so after a remembered channel has
    been toggled off, a pause followed by a resume starts it. *)
Theorem memory_survives_idle_pause_and_toggle :
  (∀ w, (∀ d, playing (sound_of d w) = false) →
        result pauseSounds w = Normal tt ∧
        currentPlayingSound (this (exec pauseSounds w))
        = currentPlayingSound (this w)) ∧
  (∀ w n, currentPlayingSound (this (exec (toggleSound n) w))
          = currentPlayingSound (this w)) ∧
  (∀ w n, currentPlayingSound (this w) = Some n →
          playing (sound_of n w) = true →
          (∀ d, d ≠ n → playing (sound_of d w) = false) →
          let w1 := exec (toggleSound n) w in
          let w3 := exec resumeSounds (exec pauseSounds w1) in
          playing (sound_of n w1) = false ∧
          playing (sound_of n w3) = true).
Proof.
  split; [|split].
  - intros w H. unfold exec, result. rewrite pauseSounds_eq. cbn [fst snd].
    by rewrite current_paused_silent.
  - intros w n. unfold exec. rewrite toggleSound_eq. cbn [snd].
    apply current_toggled.
  - intros w n Hc Hn Hd. unfold exec.
    rewrite toggleSound_eq. cbn [snd].
    assert (Hoff : ∀ d, playing (sound_of d (toggled n w)) = false).
    { intros d. rewrite sound_of_toggled, Hn.
      case_decide; [reflexivity|by apply Hd]. }
    split; [apply Hoff|].
    rewrite pauseSounds_eq. cbn [snd].
    rewrite current_paused_silent by done.
    rewrite resumeSounds_eq. cbn [snd]. unfold resumed.
    rewrite current_toggled, Hc.
    rewrite sound_of_with_document, sound_of_toggled, decide_True by done.
    by rewrite Hoff.
Qed.

Lemma memory_survives_idle_pause_and_toggle_witness :
  let w := exec (remember rain)
             (exec (toggleSound rain) (fresh (page (λ _, 70%Z)) running)) in
  let w1 := exec (toggleSound rain) w in
  currentPlayingSound (this w) = Some rain ∧
  playing (sound_of rain w) = true ∧
  playing (sound_of rain w1) = false ∧
  currentPlayingSound (this (exec pauseSounds w1)) = Some rain ∧
  playing (sound_of rain (exec resumeSounds (exec pauseSounds w1))) = true.
Proof.
  intros w w1.
  destruct memory_survives_idle_pause_and_toggle as (Hpause & Htoggle & Hrun).
  assert (Hc : currentPlayingSound (this w) = Some rain) by reflexivity.
  assert (Hn : playing (sound_of rain w) = true) by (vm_compute; reflexivity).
  assert (Hd : ∀ d, d ≠ rain → playing (sound_of d w) = false).
  { intros [] Hne; try (vm_compute; reflexivity). by destruct Hne. }
  destruct (Hrun w rain Hc Hn Hd) as [Hoff Hon].
  assert (Hsilent : ∀ d, playing (sound_of d w1) = false).
  { intros []; vm_compute; reflexivity. }
  destruct (Hpause w1 Hsilent) as [_ Hkept].
  refine (conj Hc (conj Hn (conj Hoff (conj _ Hon)))).
  rewrite Hkept. unfold w1. rewrite Htoggle. exact Hc.
Defined.

(** ** The rain generator's filter *)

Section RainFilter.
Local Open Scope Q_scope.

(** One step of the filter maps [-1, 1] into itself. *)
Lemma filter_bounded y x :
  Qabs y <= 1 → Rain.in_unit_range x → Qabs (Rain.filter y x) <= 1.
Proof.
  intros Hy [Hx1 Hx2]. apply Qabs_Qle_condition in Hy.
  apply Qabs_Qle_condition. unfold Rain.filter. split.
  - apply Qle_shift_div_l; [reflexivity|]. lra.
  - apply Qle_shift_div_r; [reflexivity|]. lra.
Qed.

Lemma states_bounded xs : ∀ y,
  Qabs y <= 1 → Forall Rain.in_unit_range xs →
  Forall (λ y', Qabs y' <= 1) (Rain.states xs y).
Proof.
  induction xs as [|x xs IH]; intros y Hy Hxs; cbn [Rain.states].
  - constructor.
  - apply Forall_cons in Hxs as [Hx Hxs].
    pose proof (filter_bounded y x Hy Hx) as Hy'.
    constructor; [exact Hy'|]. by apply IH.
Qed.

(** The loop of the handler computes the recurrence: it leaves in
    [lastOut] the last state and writes 3.5 times each state to the
    buffer. *)
Lemma loop_states n : ∀ i random y output,
  (i + n ≤ length output)%nat →
  Rain.loop n i random y output
  = (default y (last (Rain.states (Rain.whites random i n) y)),
     take i output
     ++ map (λ s, s * 3.5) (Rain.states (Rain.whites random i n) y)
     ++ drop (i + n) output)%list.
Proof.
  induction n as [|n IH]; intros i random y output Hlen.
  - cbn. by rewrite Nat.add_0_r, take_drop.
  - cbn [Rain.loop].
    rewrite list_lookup_insert_eq by lia. cbn [default].
    rewrite alter_insert.
    rewrite IH by (rewrite length_insert; lia).
    change (Rain.whites random i (S n))
      with (random i * 2 - 1 :: Rain.whites random (S i) n).
    cbn [Rain.states map]. f_equal.
    + rewrite last_cons. by destruct (last _).
    + rewrite (take_S_r _ _ (Rain.filter y (random i * 2 - 1) * 3.5))
        by (apply list_lookup_insert_eq; lia).
      rewrite take_insert_ge by lia.
      rewrite drop_insert_lt by lia.
      rewrite <- app_assoc. cbn [app].
      by replace (S i + n)%nat with (i + S n)%nat by lia.
Qed.

Lemma onaudioprocess_states size random y outputBuffer :
  length outputBuffer = size →
  Rain.onaudioprocess size random y outputBuffer
  = (default y (last (Rain.states (Rain.whites random 0 size) y)),
     map (λ s, s * 3.5) (Rain.states (Rain.whites random 0 size) y)).
Proof.
  intros Hlen. unfold Rain.onaudioprocess.
  rewrite loop_states by (cbn; lia). cbn [take app Nat.add].
  by rewrite drop_ge, app_nil_r by lia.
Qed.

(** [Math.random()] lies in [0, 1), so a white sample lies in [-1, 1). *)
Lemma whites_in_range random i n :
  (∀ k, 0 <= random k ∧ random k <= 1) →
  Forall Rain.in_unit_range (Rain.whites random i n).
Proof.
  intros Hr. unfold Rain.whites. apply Forall_fmap, Forall_forall.
  intros k _. destruct (Hr k). split; cbn; lra.
Qed.

Lemma last_state_bounded xs y :
  Qabs y <= 1 → Forall Rain.in_unit_range xs →
  Qabs (default y (last (Rain.states xs y))) <= 1.
Proof.
  intros Hy Hxs. pose proof (states_bounded xs y Hy Hxs) as H.
  destruct (last (Rain.states xs y)) as [z|] eqn:Hl; [|exact Hy].
  apply last_Some in Hl as [l Hl]. rewrite Hl in H.
  by apply Forall_app in H as [_ [H _]%Forall_cons].
Qed.

(** Over any number of blocks the closure's [lastOut] stays in [-1, 1]. *)
Lemma run_bounded size blocks : ∀ y,
  Qabs y <= 1 →
  Forall (λ random, ∀ k, 0 <= random k ∧ random k <= 1) blocks →
  Qabs (Rain.run size blocks y) <= 1.
Proof.
  induction blocks as [|random blocks IH]; intros y Hy Hb;
    cbn [Rain.run]; [exact Hy|].
  apply Forall_cons in Hb as [Hr Hb]. apply IH; [|exact Hb].
  rewrite onaudioprocess_states by apply length_replicate. cbn [fst].
  apply last_state_bounded; [exact Hy|]. by apply whites_in_range.
Qed.

End RainFilter.

(** The bound does not depend on the arithmetic being exact: it holds for
    any roundings with a relative error of at most [eps] and an absolute
    error of at most [eta], where both are at most 10^-6 (for doubles and
    singles they are far smaller). *)
Section RoundedFilter.
Local Open Scope Q_scope.
Variables (fl fl32 : Q → Q) (eps eta : Q).
Hypothesis eps_small : 0 <= eps ∧ eps <= 0.000001.
Hypothesis eta_small : 0 <= eta ∧ eta <= 0.000001.
Hypothesis fl_error : ∀ x, Qabs (fl x - x) <= eps * Qabs x + eta.
Hypothesis fl32_error : ∀ x, Qabs (fl32 x - x) <= eps * Qabs x + eta.

Lemma rounding_abs (r : Q → Q) x b :
  (∀ x, Qabs (r x - x) <= eps * Qabs x + eta) →
  Qabs x <= b → Qabs (r x) <= b * (1 + eps) + eta.
Proof using eps_small.
  intros Hr Hx.
  assert (H : Qabs (r x) <= Qabs (r x - x) + Qabs x).
  { assert (E : r x == (r x - x) + x) by ring.
    rewrite (Qabs_wd _ _ E). apply Qabs_triangle. }
  specialize (Hr x). destruct eps_small as [He _].
  pose proof (Qabs_nonneg x).
  assert (eps * Qabs x <= eps * b) by nra.
  lra.
Qed.

Lemma rounded_filter_bounded y x :
  Qabs y <= 1.01 → Rain.in_unit_range x →
  Qabs (Rain.rounded_filter fl fl32 y x) <= 1.01.
Proof using eps_small eta_small fl_error fl32_error.
  intros Hy [Hx1 Hx2]. destruct eps_small, eta_small.
  unfold Rain.rounded_filter.
  assert (Hx : Qabs x <= 1) by (apply Qabs_Qle_condition; split; assumption).
  assert (Hc : Qabs (fl 0.02) <= 0.0200011).
  { assert (H02 : Qabs 0.02 <= 0.02) by (vm_compute; discriminate).
    pose proof (rounding_abs fl _ _ fl_error H02). lra. }
  assert (Hd : 1.019997 <= fl 1.02).
  { pose proof (fl_error 1.02) as E. apply Qabs_Qle_condition in E.
    change (Qabs 1.02) with 1.02 in E. lra. }
  assert (Hp : Qabs (fl 0.02 * x) <= 0.0200011).
  { rewrite Qabs_Qmult. pose proof (Qabs_nonneg (fl 0.02)).
    pose proof (Qabs_nonneg x). nra. }
  assert (Ht1 : Qabs (fl (fl 0.02 * x)) <= 0.0200023).
  { pose proof (rounding_abs fl _ _ fl_error Hp). lra. }
  assert (Hs : Qabs (y + fl (fl 0.02 * x)) <= 1.0300023).
  { pose proof (Qabs_triangle y (fl (fl 0.02 * x))). lra. }
  assert (Ht2 : Qabs (fl (y + fl (fl 0.02 * x))) <= 1.0300044).
  { pose proof (rounding_abs fl _ _ fl_error Hs). lra. }
  assert (Hq : Qabs (fl (y + fl (fl 0.02 * x)) / fl 1.02) <= 1.00985).
  { unfold Qdiv. rewrite Qabs_Qmult.
    assert (Hinv : Qabs (/ fl 1.02) == / fl 1.02).
    { apply Qabs_pos. apply Qinv_le_0_compat. lra. }
    rewrite Hinv. apply Qle_shift_div_r; [lra|]. lra. }
  assert (Ht3 : Qabs (fl (fl (y + fl (fl 0.02 * x)) / fl 1.02)) <= 1.009853).
  { pose proof (rounding_abs fl _ _ fl_error Hq). lra. }
  pose proof (rounding_abs fl32 _ _ fl32_error Ht3). lra.
Qed.

Lemma rounded_states_bounded xs : ∀ y,
  Qabs y <= 1.01 → Forall Rain.in_unit_range xs →
  Qabs (foldl (Rain.rounded_filter fl fl32) y xs) <= 1.01.
Proof using eps_small eta_small fl_error fl32_error.
  induction xs as [|x xs IH]; intros y Hy Hxs; cbn [foldl]; [exact Hy|].
  apply Forall_cons in Hxs as [Hx Hxs].
  apply IH; [|exact Hxs]. by apply rounded_filter_bounded.
Qed.

End RoundedFilter.

(** Without rounding the rounded step is the step of line 97. *)
Lemma rounded_filter_exact y x :
  Rain.rounded_filter (λ q, q) (λ q, q) y x = Rain.filter y x.
Proof. reflexivity. Qed.

(** C6. For inputs x[1..n] in [-1, 1] and y[0] = 0, every state y[k] of
    the recurrence y[k] = (y[k-1] + 0.02 * x[k]) / 1.02 that the rain
    generator runs has |y[k]| <= 1.01. *)
Theorem rain_filter_state_bounded (xs : list Q) :
  Forall Rain.in_unit_range xs →
  Forall (λ y, Qabs y <= 1.01)%Q (Rain.states xs 0).
Proof.
  intros Hxs.
  assert (H0 : (Qabs 0 <= 1)%Q) by (by vm_compute).
  eapply Forall_impl; [apply (states_bounded xs 0 H0 Hxs)|].
  intros y Hy. cbn beta in Hy. lra.
Qed.

Lemma rain_filter_state_bounded_witness :
  Forall Rain.in_unit_range [1; -1; 0.5]%Q ∧
  Forall (λ y, Qabs y <= 1.01)%Q (Rain.states [1; -1; 0.5]%Q 0).
Proof.
  assert (Hxs : Forall Rain.in_unit_range [1; -1; 0.5]%Q).
  { repeat constructor; by vm_compute. }
  exact (conj Hxs (rain_filter_state_bounded _ Hxs)).
Defined.

(** * Further properties of the engine *)

(** X1. [toggleSound] completes normally in every state; what it returns is
    the playing flag it leaves, which is the negation of the flag it
    found. *)
Theorem toggleSound_returns_the_flag_it_leaves (w : World) (n : SoundName) :
  result (toggleSound n) w
  = Normal (playing (sound_of n (exec (toggleSound n) w))) ∧
  playing (sound_of n (exec (toggleSound n) w))
  = negb (playing (sound_of n w)) ∧
  ∀ d, d ≠ n →
       sound_of d (exec (toggleSound n) w) = sound_of d w.
Proof.
  unfold exec, result. rewrite toggleSound_eq. cbn [fst snd].
  rewrite sound_of_toggled, decide_True by done.
  split; [by destruct (playing (sound_of n w))|].
  split; [by destruct (playing (sound_of n w))|].
  intros d Hd. by rewrite sound_of_toggled, decide_False.
Qed.

(** X2. [setVolume] on a playing channel whose last node is a gain node
    completes normally and rewrites the gain of that node, and nothing
    else, to (volume / 100) times 0.3 for rain and 0.2 for the others. *)
Theorem setVolume_rewrites_only_the_gain_stage
    (w : World) (n : SoundName) (v g : Q) (r : nat) (o : list Target) :
  playing (sound_of n w) = true →
  last (nodes (sound_of n w)) = Some r →
  heap w !! r = Some (GainNode g o) →
  let a := if decide (n = rain) then 0.3%Q else 0.2%Q in
  let w' := exec (setVolume n v) w in
  result (setVolume n v) w = Normal tt ∧
  heap w' = <[r := GainNode (v / 100 * a) o]> (heap w) ∧
  gain_stage n w' = Some (v / 100 * a)%Q ∧
  this w' = this w ∧ document w' = document w.
Proof.
  intros Hp Hl Hr a w'. unfold w', exec, result.
  rewrite setVolume_eq. cbn [fst snd]. split; [reflexivity|].
  assert (Hv : volume_set n v w
               = with_heap (alter (with_gain (v / 100 * a)) r) w).
  { unfold volume_set. rewrite Hp. rewrite last_lookup in Hl.
    assert (0 < length (nodes (sound_of n w)))%nat.
    { destruct (nodes (sound_of n w)); [discriminate|cbn; lia]. }
    rewrite bool_decide_true by done. cbn [andb].
    replace (length (nodes (sound_of n w)) - 1)%nat
      with (pred (length (nodes (sound_of n w)))) by lia.
    rewrite Hl, Hr. reflexivity. }
  rewrite Hv. cbn [heap with_heap].
  assert (Hh : alter (with_gain (v / 100 * a)) r (heap w)
               = <[r := GainNode (v / 100 * a) o]> (heap w)).
  { rewrite list_insert_alter. by apply (alter_agree _ _ _ _ _ Hr). }
  split; [exact Hh|]. split; [|by destruct w].
  unfold gain_stage. rewrite sound_of_with_heap, Hl. cbn [mbind option_bind heap with_heap].
  rewrite Hh, list_lookup_insert_eq by (by eapply lookup_lt_Some).
  reflexivity.
Qed.

Lemma setVolume_rewrites_only_the_gain_stage_witness :
  let w := exec (playSound rain) (fresh (page (λ _, 70%Z)) running) in
  playing (sound_of rain w) = true ∧
  last (nodes (sound_of rain w)) = Some 0%nat ∧
  heap (exec (setVolume rain 40) w)
  = [ GainNode (40 / 100 * 0.3) [Destination];
      ScriptProcessorNode 4096 (Some 0%Q) [Node 0] ].
Proof.
  intros w.
  assert (Hp : playing (sound_of rain w) = true) by (vm_compute; reflexivity).
  assert (Hl : last (nodes (sound_of rain w)) = Some 0%nat)
    by (vm_compute; reflexivity).
  assert (Hr : heap w !! 0%nat
               = Some (GainNode (inject_Z 70 / 100 * 0.3) [Destination]))
    by (vm_compute; reflexivity).
  destruct (setVolume_rewrites_only_the_gain_stage w rain 40 _ _ _ Hp Hl Hr)
    as (_ & Hh & _).
  refine (conj Hp (conj Hl _)). rewrite Hh. vm_compute. reflexivity.
Defined.

(** X3. The gain a start gives the gain stage of each channel: the
    hundredth of a slider's value, 70 when the page has no such slider,
    times 0.3 for rain and 0.2 for the others; the slider is the channel's
    own for rain and alpha, and theta's for theta, beta and gamma. *)
Theorem start_gain_of_each_channel (w : World) (n : SoundName) :
  let slider := match n with
                | rain => "rainVolume"
                | alpha => "alphaVolume"
                | _ => "thetaVolume"
                end in
  let v := match document w !! slider with
           | Some el => value el
           | None => 70%Z
           end in
  let a := match n with rain => 0.3%Q | _ => 0.2%Q end in
  gain_stage n (exec (playSound n) w) = Some (inject_Z v / 100 * a)%Q.
Proof.
  cbv zeta. rewrite gain_stage_played. by destruct n.
Qed.

Section Release.

Lemma released_idempotent nd : released (released nd) = released nd.
Proof. by destruct nd as [?|? ? [] ? ?|?|? ? ?]. Qed.

Lemma outputs_of_released nd : outputs_of (released nd) = [].
Proof. by destruct nd as [?|? ? [] ? ?|?|? ? ?]. Qed.

Lemma sounding_released nd : sounding (released nd) = false.
Proof. by destruct nd as [?|? ? [] [] ?|?|? ? ?]. Qed.

Lemma length_release refs : ∀ h, length (release refs h) = length h.
Proof.
  induction refs as [|r refs IH]; intros h; cbn; [done|].
  change (length (release refs (alter released r h)) = length h).
  by rewrite IH, length_alter.
Qed.

Lemma lookup_release refs : ∀ h r,
  release refs h !! r
  = (if decide (r ∈ refs) then released else id) <$> h !! r.
Proof.
  induction refs as [|x refs IH]; intros h r.
  - cbn. by destruct (h !! r).
  - change (release (x :: refs) h) with (release refs (alter released x h)).
    rewrite IH. destruct (decide (r = x)) as [->|Hne].
    + rewrite list_lookup_alter_eq.
      rewrite (decide_True (P := x ∈ x :: refs)) by set_solver.
      destruct (decide (x ∈ refs)), (h !! x) as [nd|]; cbn;
        by rewrite ?released_idempotent.
    + rewrite list_lookup_alter_ne by done.
      destruct (decide (r ∈ refs)) as [Hin|Hin].
      * rewrite decide_True; [done|by right].
      * rewrite decide_False; [done|].
        by intros [?|?]%elem_of_cons.
Qed.

End Release.

(** X4. [stopSound] completes normally in every state, also when a node
    refuses [stop()]. Afterwards every node the channel listed has no
    outgoing connection and is not sounding, every other node of the heap is
    as before, and the other channels are as before. *)
Theorem stopSound_releases_its_nodes (w : World) (n : SoundName) :
  let w' := exec (stopSound n) w in
  result (stopSound n) w = Normal tt ∧
  length (heap w') = length (heap w) ∧
  (∀ r nd, r ∈ nodes (sound_of n w) → heap w' !! r = Some nd →
           outputs_of nd = [] ∧ sounding nd = false) ∧
  (∀ r, r ∉ nodes (sound_of n w) → heap w' !! r = heap w !! r) ∧
  (∀ d, d ≠ n → sound_of d w' = sound_of d w).
Proof.
  unfold exec, result. rewrite stopSound_eq. cbn [fst snd].
  split; [reflexivity|]. cbn [heap stopped].
  split; [apply length_release|]. split; [|split].
  - intros r nd Hr. rewrite lookup_release, decide_True by done.
    destruct (heap w !! r) as [nd0|]; cbn; [|discriminate].
    intros [= <-]. split; [apply outputs_of_released|apply sounding_released].
  - intros r Hr. rewrite lookup_release, decide_False by done.
    by destruct (heap w !! r).
  - intros d Hd. by rewrite sound_of_stopped, decide_False.
Qed.

Section Ownership.

Lemma owned_refs_played n w :
  owned_refs (played n w)
  ≡ₚ owned_refs w ++ graph_refs n (length (heap w)).
Proof.
  destruct w as [[ctx [[p1 l1] [p2 l2] [p3 l3] [p4 l4] [p5 l5]] cur] h doc ap].
  destruct n; cbn -[graph_refs]; rewrite ?app_nil_r; solve_Permutation.
Qed.

Lemma owned_refs_stopped n w :
  owned_refs w ≡ₚ nodes (sound_of n w) ++ owned_refs (stopped n w).
Proof.
  destruct w as [[ctx [[p1 l1] [p2 l2] [p3 l3] [p4 l4] [p5 l5]] cur] h doc ap].
  destruct n; cbn; rewrite ?app_nil_r; solve_Permutation.
Qed.

Lemma graph_refs_fresh n base :
  NoDup (graph_refs n base) ∧
  Forall (λ r, base ≤ r < base + length (graph_refs n base))%nat
         (graph_refs n base).
Proof.
  split.
  - destruct n; cbn; repeat (apply NoDup_cons; split;
      [rewrite ?elem_of_cons, elem_of_nil; lia|]);
      apply NoDup_nil_2.
  - destruct n; cbn; repeat (apply Forall_cons; split; [lia|]);
      apply Forall_nil_2.
Qed.

Lemma length_graph n d base :
  length (graph n d base) = length (graph_refs n base).
Proof. by destruct n. Qed.

Lemma Exclusive_initialised w : Exclusive w → Exclusive (initialised w).
Proof. done. Qed.

Lemma Exclusive_played n w : Exclusive w → Exclusive (played n w).
Proof.
  intros [Hnd Hlt].
  pose proof (graph_refs_fresh n (length (heap w))) as [Hfd Hfr].
  split.
  - rewrite owned_refs_played. apply NoDup_app. split; [done|].
    split; [|done]. intros r Hr Hr'.
    rewrite Forall_forall in Hlt, Hfr.
    specialize (Hlt r Hr). specialize (Hfr r Hr'). lia.
  - rewrite owned_refs_played, heap_played, length_app, length_graph.
    apply Forall_app. split.
    + eapply Forall_impl; [exact Hlt|]. cbn. intros; lia.
    + eapply Forall_impl; [exact Hfr|]. cbn. intros; lia.
Qed.

Lemma Exclusive_stopped n w : Exclusive w → Exclusive (stopped n w).
Proof.
  intros [Hnd Hlt]. rewrite (owned_refs_stopped n w) in Hnd, Hlt.
  apply NoDup_app in Hnd as (_ & _ & Hnd).
  apply Forall_app in Hlt as [_ Hlt].
  split; [done|]. cbn [heap stopped]. by rewrite length_release.
Qed.

Lemma Exclusive_with_document f w : Exclusive w → Exclusive (with_document f w).
Proof. done. Qed.

Lemma Exclusive_toggled n w : Exclusive w → Exclusive (toggled n w).
Proof.
  intros H. unfold toggled. destruct (playing (sound_of n w)).
  - by apply Exclusive_stopped.
  - by apply Exclusive_played.
Qed.

Lemma Exclusive_volume_set n v w : Exclusive w → Exclusive (volume_set n v w).
Proof.
  intros [Hnd Hlt]. unfold volume_set.
  repeat (case_match; try done).
  split; [done|]. cbn [heap with_heap]. by rewrite length_alter.
Qed.

Lemma Exclusive_stop_step n w : Exclusive w → Exclusive (stop_step n w).
Proof.
  intros H. unfold stop_step. destruct (playing (sound_of n w)); [|done].
  by apply (Exclusive_stopped n w) in H.
Qed.

Lemma Exclusive_pause_step n w : Exclusive w → Exclusive (pause_step n w).
Proof.
  intros H. unfold pause_step. destruct (playing (sound_of n w)); [|done].
  by apply (Exclusive_stopped n
              (with_this (with_currentPlayingSound (Some n)) w)).
Qed.

End Ownership.

(** X5. Exclusive ownership: no node is referred to twice, by one channel
    or by two, and every reference a channel holds points into the heap.
    This holds after the constructor and every operation of the engine
    preserves it. *)
Theorem nodes_are_owned_exclusively :
  (∀ d policy, Exclusive (fresh d policy)) ∧
  (∀ w op, Exclusive w → Exclusive (exec (perform op) w)).
Proof.
  split.
  - intros d policy. split; [apply NoDup_nil_2|apply Forall_nil_2].
  - intros w op H. unfold exec.
    destruct op as [n|n|n|n v| | |]; cbn [perform].
    + rewrite (bind_normal _ _ _ _ _ (toggleSound_eq _ _)).
      by apply Exclusive_toggled.
    + rewrite playSound_eq. by apply Exclusive_played.
    + rewrite stopSound_eq. by apply Exclusive_stopped.
    + rewrite setVolume_eq. by apply Exclusive_volume_set.
    + rewrite stopAllSounds_eq. cbn [snd]. unfold all_stopped, sound_keys.
      cbn [foldl].
      by do 5 apply Exclusive_stop_step.
    + rewrite pauseSounds_eq. cbn [snd]. unfold paused, sound_keys.
      cbn [foldl]. by do 5 apply Exclusive_pause_step.
    + rewrite resumeSounds_eq. cbn [snd]. unfold resumed.
      destruct (currentPlayingSound (this w)); [|done].
      by apply (Exclusive_toggled s w) in H.
Qed.

Lemma nodes_are_owned_exclusively_witness :
  let w := exec (perform (ToggleSound gamma))
             (exec (perform (ToggleSound rain))
                   (fresh (page (λ _, 70%Z)) running)) in
  Exclusive w ∧
  owned_refs w = [1; 0; 3; 4; 5; 6; 2]%nat ∧
  Exclusive (exec (perform (PlaySound rain)) w).
Proof.
  intros w.
  destruct nodes_are_owned_exclusively as [Hfresh Hop].
  assert (Hw : Exclusive w).
  { apply (Hop _ (ToggleSound gamma)), (Hop _ (ToggleSound rain)), Hfresh. }
  refine (conj Hw (conj _ (Hop w (PlaySound rain) Hw))).
  vm_compute. reflexivity.
Defined.

(** X6. [pauseSounds] with any number of channels playing: it completes
    normally, it remembers the playing channel that comes last in the order
    of the keys (rain, alpha, theta, beta, gamma) and keeps the memory it
    found when none is playing, it stops every channel, and it leaves the
    node list of a channel that was not playing alone. *)
Theorem pause_remembers_the_last_playing_key (w : World) :
  let w' := exec pauseSounds w in
  result pauseSounds w = Normal tt ∧
  currentPlayingSound (this w')
  = match last (playing_keys w) with
    | Some n => Some n
    | None => currentPlayingSound (this w)
    end ∧
  (∀ n, playing (sound_of n w') = false) ∧
  (∀ n, playing (sound_of n w) = false → sound_of n w' = sound_of n w).
Proof.
  unfold exec, result. rewrite pauseSounds_eq. cbn [fst snd].
  split; [reflexivity|]. split; [|split].
  - unfold paused, playing_keys, sound_keys. cbn [foldl].
    rewrite !current_pause_step, !sound_of_pause_step.
    repeat first [ rewrite decide_True by reflexivity
                 | rewrite decide_False by discriminate ].
    rewrite !filter_cons, filter_nil.
    destruct (playing (sound_of rain w)), (playing (sound_of alpha w)),
      (playing (sound_of theta w)), (playing (sound_of beta w)),
      (playing (sound_of gamma w)); reflexivity.
  - intros n. apply playing_paused.
  - intros n Hn. unfold paused, sound_keys. cbn [foldl].
    rewrite !sound_of_pause_step.
    destruct n;
      repeat first [ rewrite decide_True by reflexivity
                   | rewrite decide_False by discriminate ];
      by rewrite ?Hn.
Qed.

Section Context.

Lemma same_context_refl c : same_context c c.
Proof. by repeat split. Qed.

Lemma same_context_trans c1 c2 c3 :
  same_context c1 c2 → same_context c2 c3 → same_context c1 c3.
Proof.
  intros (Hs1 & Hr1 & He1) (Hs2 & Hr2 & He2). repeat split.
  - congruence.
  - lia.
  - intros Hne. rewrite He2, He1; congruence.
Qed.

Lemma same_context_ensured w c :
  audioContext (this w) = Some c → same_context c (ensured w).
Proof.
  intros Hc. unfold ensured. rewrite Hc. cbn [default].
  destruct c as [[] k]; unfold same_context; cbn; (split; [done|split; [lia|]]); cbn; done.
Qed.

Lemma context_toggled n w :
  audioContext (this (toggled n w))
  = Some (if playing (sound_of n w) then ensured w
          else ensured (initialised w)).
Proof. unfold toggled. by destruct (playing (sound_of n w)). Qed.

Lemma context_stop_step n w :
  audioContext (this (stop_step n w)) = audioContext (this w).
Proof. unfold stop_step. by destruct (playing (sound_of n w)). Qed.

Lemma context_pause_step n w :
  audioContext (this (pause_step n w)) = audioContext (this w).
Proof. unfold pause_step. by destruct (playing (sound_of n w)). Qed.

Lemma context_volume_set n v w :
  audioContext (this (volume_set n v w)) = audioContext (this w).
Proof. unfold volume_set. by repeat case_match. Qed.

Lemma same_context_toggled n w c :
  audioContext (this w) = Some c →
  ∃ c', audioContext (this (toggled n w)) = Some c' ∧ same_context c c'.
Proof.
  intros Hc. rewrite context_toggled. eexists. split; [reflexivity|].
  destruct (playing (sound_of n w)).
  - by apply same_context_ensured.
  - eapply same_context_trans; [by apply same_context_ensured|].
    by apply same_context_ensured.
Qed.

End Context.

(** X7. The audio context is created once: a start in a state without a
    context creates one in the state the browser hands out, and no operation
    of the engine replaces or removes an existing context. An operation only
    counts resume requests on a suspended context; a context that is not
    suspended is left exactly as it is. *)
Theorem audio_context_is_created_once :
  (∀ w n, audioContext (this w) = None →
          ∃ c, audioContext (this (exec (playSound n) w)) = Some c ∧
               state c = autoplay w) ∧
  (∀ w op c, audioContext (this w) = Some c →
             ∃ c', audioContext (this (exec (perform op) w)) = Some c' ∧
                   state c' = state c ∧
                   (resume_requests c ≤ resume_requests c')%nat ∧
                   (state c ≠ suspended → c' = c)).
Proof.
  split.
  - intros w n Hc. unfold exec. rewrite playSound_eq. cbn [snd].
    exists (ensured w). split; [reflexivity|].
    unfold ensured. rewrite Hc. cbn. by destruct (autoplay w).
  - intros w op c Hc.
    assert (Hkeep : ∀ w', audioContext (this w') = audioContext (this w) →
              ∃ c', audioContext (this w') = Some c' ∧ same_context c c').
    { intros w' ->. exists c. split; [done|apply same_context_refl]. }
    unfold exec.
    destruct op as [n|n|n|n v| | |]; cbn [perform].
    + rewrite (bind_normal _ _ _ _ _ (toggleSound_eq _ _)).
      by apply same_context_toggled.
    + rewrite playSound_eq. exists (ensured w). split; [reflexivity|].
      by apply same_context_ensured.
    + rewrite stopSound_eq. by apply Hkeep.
    + rewrite setVolume_eq. apply Hkeep, context_volume_set.
    + rewrite stopAllSounds_eq. apply Hkeep. cbn [snd].
      unfold all_stopped, sound_keys. cbn [foldl].
      change (audioContext (this (with_this ?f ?x)))
        with (audioContext (this x)).
      by rewrite !context_stop_step.
    + rewrite pauseSounds_eq. apply Hkeep. cbn [snd].
      unfold paused, sound_keys. cbn [foldl].
      by rewrite !context_pause_step.
    + rewrite resumeSounds_eq. cbn [snd]. unfold resumed.
      destruct (currentPlayingSound (this w)) as [n|]; [|by apply Hkeep].
      by apply same_context_toggled.
Qed.

Lemma audio_context_is_created_once_witness :
  let w0 := fresh (page (λ _, 70%Z)) suspended in
  let w := exec (perform (PlaySound rain)) w0 in
  audioContext (this w0) = None ∧
  audioContext (this w) = Some {| state := suspended; resume_requests := 1 |} ∧
  audioContext (this (exec (perform PauseSounds) w))
  = Some {| state := suspended; resume_requests := 1 |} ∧
  audioContext (this (exec (perform ResumeSounds) w))
  = Some {| state := suspended; resume_requests := 1 |}.
Proof.
  intros w0 w.
  destruct audio_context_is_created_once as [Hnew Hkeep].
  assert (H0 : audioContext (this w0) = None) by reflexivity.
  destruct (Hnew w0 rain H0) as (c & Hc & Hs).
  assert (Hw : audioContext (this w)
               = Some {| state := suspended; resume_requests := 1 |})
    by (vm_compute; reflexivity).
  destruct (Hkeep w PauseSounds _ Hw) as (c1 & Hc1 & _).
  refine (conj H0 (conj Hw (conj _ _))); vm_compute; reflexivity.
Defined.

Section RainBlocks.
Local Open Scope Q_scope.

Lemma length_states xs : ∀ y, length (Rain.states xs y) = length xs.
Proof. induction xs as [|x xs IH]; intros y; cbn; [done|]. by rewrite IH. Qed.

Lemma length_whites random i n : length (Rain.whites random i n) = n.
Proof. unfold Rain.whites. by rewrite length_map, length_seq. Qed.

End RainBlocks.

(** X8. One block of the rain handler, on a buffer of the block's size,
    with [lastOut] in [-1, 1] and every draw of [Math.random()] in [0, 1]:
    the new [lastOut] is in [-1, 1] again, the buffer keeps its size and
    every sample written is in [-3.5, 3.5]. So is [lastOut] after any
    number of blocks. *)
Theorem rain_block_stays_in_range
    (size : nat) (random : nat → Q) (lastOut : Q) (outputBuffer : list Q) :
  length outputBuffer = size →
  (Qabs lastOut <= 1)%Q →
  (∀ k, 0 <= random k ∧ random k <= 1)%Q →
  let block := Rain.onaudioprocess size random lastOut outputBuffer in
  (Qabs (fst block) <= 1)%Q ∧
  length (snd block) = size ∧
  Forall (λ sample, Qabs sample <= 3.5)%Q (snd block) ∧
  ∀ blocks,
    Forall (λ draws, ∀ k, 0 <= draws k ∧ draws k <= 1)%Q blocks →
    (Qabs (Rain.run size blocks lastOut) <= 1)%Q.
Proof.
  intros Hlen Hy Hr block. unfold block.
  rewrite onaudioprocess_states by done. cbn [fst snd].
  pose proof (whites_in_range random 0 size Hr) as Hw.
  split; [by apply last_state_bounded|].
  split; [by rewrite length_map, length_states, length_whites|].
  split.
  - apply Forall_fmap.
    eapply Forall_impl; [apply (states_bounded _ _ Hy Hw)|].
    intros s Hs. unfold compose. cbn beta in *.
    pose proof (Qabs_Qmult s 3.5) as E. change (Qabs 3.5) with 3.5%Q in E.
    rewrite E. lra.
  - intros blocks Hb. by apply run_bounded.
Qed.

Lemma rain_block_stays_in_range_witness :
  let random := λ k : nat, if Nat.even k then 1%Q else 0.25%Q in
  let block := Rain.onaudioprocess 4 random 0 [0; 0; 0; 0]%Q in
  (Qabs (fst block) <= 1)%Q ∧
  length (snd block) = 4%nat ∧
  Forall (λ sample, Qabs sample <= 3.5)%Q (snd block).
Proof.
  intros random block.
  assert (Hlen : length [0; 0; 0; 0]%Q = 4%nat) by reflexivity.
  assert (Hy : (Qabs 0 <= 1)%Q) by (vm_compute; discriminate).
  assert (Hr : ∀ k, (0 <= random k ∧ random k <= 1)%Q).
  { intros k. unfold random. destruct (Nat.even k); split;
      vm_compute; discriminate. }
  destruct (rain_block_stays_in_range 4 random 0 _ Hlen Hy Hr)
    as (H1 & H2 & H3 & _).
  exact (conj H1 (conj H2 H3)).
Defined.

Section FixedPoint.
Local Open Scope Q_scope.

(** Rounding down to a multiple of 2^-20 is off by less than 10^-6. *)
Lemma truncate_error x :
  Qabs (inject_Z (Qfloor (x * 1048576)) / 1048576 - x)
  <= 0 * Qabs x + 0.000001.
Proof.
  pose proof (Qfloor_le (x * 1048576)) as Hlo.
  pose proof (Qlt_floor (x * 1048576)) as Hhi.
  rewrite inject_Z_plus in Hhi. change (inject_Z 1) with 1 in Hhi.
  set (z := inject_Z (Qfloor (x * 1048576))) in *.
  apply Qabs_Qle_condition. split.
  - apply Qle_minus_iff.
    setoid_replace (z / 1048576 - x + - - (0 * Qabs x + 0.000001))
      with ((z + 1.048576 - x * 1048576) / 1048576) using relation Qeq
      by (field).
    apply Qle_shift_div_l; [reflexivity|]. lra.
  - apply Qle_minus_iff.
    setoid_replace (0 * Qabs x + 0.000001 + - (z / 1048576 - x))
      with ((1.048576 + x * 1048576 - z) / 1048576) using relation Qeq
      by (field).
    apply Qle_shift_div_l; [reflexivity|]. lra.
Qed.

End FixedPoint.

(** X9. The bound on the filter state does not rest on exact arithmetic.
    Let line 97 be computed with every operation rounded, to a double by
    [fl] and on the store into the typed array to a single by [fl32], each
    rounding with a relative error of at most [eps] and an absolute error of
    at most [eta], both at most 10^-6. Then from a state within 1.01, inputs
    in [-1, 1] keep the state within 1.01. *)
Theorem rain_filter_bound_survives_rounding
    (fl fl32 : Q → Q) (eps eta : Q) (xs : list Q) (y : Q) :
  (0 <= eps ∧ eps <= 0.000001)%Q →
  (0 <= eta ∧ eta <= 0.000001)%Q →
  (∀ x, Qabs (fl x - x) <= eps * Qabs x + eta)%Q →
  (∀ x, Qabs (fl32 x - x) <= eps * Qabs x + eta)%Q →
  (Qabs y <= 1.01)%Q →
  Forall Rain.in_unit_range xs →
  (Qabs (foldl (Rain.rounded_filter fl fl32) y xs) <= 1.01)%Q.
Proof.
  intros Heps Heta Hfl Hfl32 Hy. revert y Hy.
  induction xs as [|x xs IH]; intros y Hy Hxs; cbn [foldl]; [exact Hy|].
  apply Forall_cons in Hxs as [Hx Hxs].
  apply IH; [|exact Hxs].
  by apply (rounded_filter_bounded fl fl32 eps eta).
Qed.

Lemma rain_filter_bound_survives_rounding_witness :
  let fl := λ x : Q, (inject_Z (Qfloor (x * 1048576)) / 1048576)%Q in
  (∀ x, Qabs (fl x - x) <= 0 * Qabs x + 0.000001)%Q ∧
  Forall Rain.in_unit_range [1; -1; 0.5]%Q ∧
  (Qabs (foldl (Rain.rounded_filter fl fl) 0 [1; -1; 0.5]) <= 1.01)%Q.
Proof.
  intros fl.
  assert (Heps : (0 <= 0 ∧ 0 <= 0.000001)%Q)
    by (split; vm_compute; discriminate).
  assert (Heta : (0 <= 0.000001 ∧ 0.000001 <= 0.000001)%Q)
    by (split; vm_compute; discriminate).
  assert (Hfl : ∀ x, (Qabs (fl x - x) <= 0 * Qabs x + 0.000001)%Q)
    by (intros x; apply truncate_error).
  assert (Hy : (Qabs 0 <= 1.01)%Q) by (vm_compute; discriminate).
  assert (Hxs : Forall Rain.in_unit_range [1; -1; 0.5]%Q).
  { repeat constructor; vm_compute; discriminate. }
  exact (conj Hfl (conj Hxs
    (rain_filter_bound_survives_rounding fl fl 0 0.000001 _ 0
       Heps Heta Hfl Hfl Hy Hxs))).
Defined.

Section StatusLines.

Lemma soundButtonClick_eq n w :
  soundButtonClick n w
  = (match document w !! (key n +:+ "Status") with
     | Some _ => Normal tt
     | None => Throw TypeError
     end,
     with_document
       (status_written n
          (if negb (playing (sound_of n w)) then "Playing" else "")
          (classList_toggle "playing" (negb (playing (sound_of n w)))))
       (toggled n w)).
Proof.
  unfold soundButtonClick.
  rewrite (bind_normal _ _ _ _ _ (toggleSound_eq _ _)).
  unfold getElementById, update_element, status_written. js_run.
  replace (document w) with (document (toggled n w))
    by (unfold toggled; by destruct (playing (sound_of n w))).
  destruct (toggled n w) as [e h doc ap]; unfold with_document; cbn.
  destruct (doc !! (key n +:+ "Status")); reflexivity.
Qed.

Lemma key_status_inj n d :
  key n +:+ "Status" = key d +:+ "Status" → n = d.
Proof. destruct n, d; intros H; try reflexivity; discriminate H. Qed.

Lemma lookup_status_written n text cls doc d :
  status_written n text cls doc !! (key d +:+ "Status")
  = if decide (d = n)
    then (λ el, {| value := value el; textContent := text;
                   classList := cls (classList el) |})
           <$> doc !! (key d +:+ "Status")
    else doc !! (key d +:+ "Status").
Proof.
  unfold status_written, Document in *. case_decide as Hd.
  - subst d. destruct (doc !! (key n +:+ "Status")) as [el|] eqn:E.
    + by rewrite lookup_alter_eq, E.
    + by rewrite E.
  - destruct (doc !! (key n +:+ "Status")); [|done].
    rewrite lookup_alter_ne; [done|].
    intros H. by apply key_status_inj in H.
Qed.

Lemma document_toggled n w : document (toggled n w) = document w.
Proof. unfold toggled. by destruct (playing (sound_of n w)). Qed.

Lemma shows_toggle b l el :
  shows b {| value := value el; textContent := if b then "Playing" else "";
             classList := classList_toggle "playing" b l |}.
Proof.
  split; [reflexivity|]. cbn. unfold classList_toggle, classList_remove.
  destruct b.
  - split; [done|]. intros _. case_decide; [done|].
    apply elem_of_app. right. by apply list_elem_of_singleton.
  - split; [|done]. intros [H _]%list_elem_of_filter. done.
Qed.

Lemma shows_cleared el :
  shows false {| value := value el; textContent := "";
                 classList := classList_remove "playing" (classList el) |}.
Proof. apply (shows_toggle false). Qed.

(** Toggling a channel and writing its status line keeps the lines in
    step. *)
Lemma StatusSync_toggled_written n w :
  StatusSync w →
  StatusSync
    (with_document
       (status_written n
          (if negb (playing (sound_of n w)) then "Playing" else "")
          (classList_toggle "playing" (negb (playing (sound_of n w)))))
       (toggled n w)).
Proof.
  intros H d el. rewrite sound_of_with_document, sound_of_toggled.
  cbn [document with_document]. rewrite document_toggled.
  rewrite lookup_status_written. case_decide as Hd.
  - subst d. destruct (document w !! _) as [el0|]; [|discriminate].
    cbn. intros [= <-].
    destruct (playing (sound_of n w)); apply shows_toggle.
  - apply H.
Qed.

Lemma StatusSync_stopped_cleared n w :
  StatusSync w →
  StatusSync (with_document (status_cleared n) (stopped n w)).
Proof.
  intros H d el. rewrite sound_of_with_document, sound_of_stopped.
  cbn [document with_document stopped]. unfold status_cleared.
  rewrite lookup_status_written. case_decide as Hd.
  - subst d. destruct (document w !! _) as [el0|]; [|discriminate].
    cbn. intros [= <-]. apply shows_cleared.
  - apply H.
Qed.

Lemma StatusSync_stop_step n w : StatusSync w → StatusSync (stop_step n w).
Proof.
  intros H. unfold stop_step. destruct (playing (sound_of n w)); [|done].
  by apply StatusSync_stopped_cleared.
Qed.

Lemma StatusSync_pause_step n w : StatusSync w → StatusSync (pause_step n w).
Proof.
  intros H. unfold pause_step. destruct (playing (sound_of n w)); [|done].
  by apply (StatusSync_stopped_cleared n
              (with_this (with_currentPlayingSound (Some n)) w)).
Qed.

End StatusLines.

(** X10. The status lines follow the channels. On a page whose status lines
    agree with the playing flags (text "Playing" and class "playing" exactly
    for a playing channel), they still agree after a click on a sound
    button, a [setVolume], a [stopAllSounds], a [pauseSounds] or a
    [resumeSounds], also when the click handler throws because the page has
    no status line for the channel. A fresh page with empty status lines
    agrees with a new engine. *)
Theorem status_lines_follow_the_channels :
  (∀ volume policy, StatusSync (fresh (page volume) policy)) ∧
  (∀ w c, StatusSync w → StatusSync (exec (page_call c) w)).
Proof.
  split.
  - intros volume policy n el Hel.
    replace (playing (sound_of n (fresh (page volume) policy))) with false
      by (by destruct n).
    destruct n; vm_compute in Hel; injection Hel as <-;
      (split; [reflexivity|]); cbn;
      (split; [|discriminate]);
      intros [H|H%elem_of_nil]%elem_of_cons; done.
  - intros w c H. unfold exec.
    destruct c as [n|n v| | |]; cbn [page_call].
    + rewrite soundButtonClick_eq. cbn [snd].
      by apply StatusSync_toggled_written.
    + rewrite setVolume_eq. cbn [snd]. intros d el.
      rewrite sound_of_volume_set.
      replace (document (volume_set n v w)) with (document w)
        by (unfold volume_set; by repeat case_match).
      apply H.
    + rewrite stopAllSounds_eq. cbn [snd]. unfold all_stopped, sound_keys.
      cbn [foldl].
      by do 5 apply StatusSync_stop_step.
    + rewrite pauseSounds_eq. cbn [snd]. unfold paused, sound_keys.
      cbn [foldl]. by do 5 apply StatusSync_pause_step.
    + rewrite resumeSounds_eq. cbn [snd]. unfold resumed.
      destruct (currentPlayingSound (this w)) as [n|]; [|done].
      by apply StatusSync_toggled_written.
Qed.

Lemma status_lines_follow_the_channels_witness :
  let w := exec (page_call (ClickSound beta))
             (fresh (page (λ _, 70%Z)) running) in
  StatusSync w ∧
  StatusSync (exec (page_call CallPause) w) ∧
  (textContent <$> document w !! "betaStatus") = Some "Playing" ∧
  (textContent <$> document (exec (page_call CallPause) w) !! "betaStatus")
  = Some "".
Proof.
  intros w.
  destruct status_lines_follow_the_channels as [Hfresh Hcall].
  assert (Hw : StatusSync w) by apply Hcall, Hfresh.
  refine (conj Hw (conj (Hcall w CallPause Hw) (conj _ _)));
    vm_compute; reflexivity.
Defined.

(** * Reasoning about the timer and the page *)

Section PageLaws.
Local Open Scope page_scope.
Context {A B C : Type}.

Lemma page_bind_ret (a : A) (k : A → Page.M B) s :
  Page.bind (Page.ret a) k s = k a s.
Proof. reflexivity. Qed.

Lemma page_bind_gets (f : App → A) (k : A → Page.M B) s :
  Page.bind (Page.gets f) k s = k (f s) s.
Proof. reflexivity. Qed.

Lemma page_bind_modify (f : App → App) (k : unit → Page.M B) s :
  Page.bind (Page.modify f) k s = k tt (f s).
Proof. reflexivity. Qed.

Lemma page_bind_throw e (k : A → Page.M B) s :
  Page.bind (Page.throw e) k s = (Throw e, s).
Proof. reflexivity. Qed.

Lemma page_bind_bind (m : Page.M A) (k1 : A → Page.M B)
    (k2 : B → Page.M C) s :
  Page.bind (Page.bind m k1) k2 s
  = Page.bind m (λ a, Page.bind (k1 a) k2) s.
Proof. unfold Page.bind. by destruct (m s) as [[a|e] s']. Qed.

Lemma page_bind_normal (m : Page.M A) (k : A → Page.M B) s a s' :
  m s = (Normal a, s') → Page.bind m k s = k a s'.
Proof. unfold Page.bind. by intros ->. Qed.

Lemma page_bind_thrown (m : Page.M A) (k : A → Page.M B) s e s' :
  m s = (Throw e, s') → Page.bind m k s = (Throw e, s').
Proof. unfold Page.bind. by intros ->. Qed.

Lemma engine_normal (m : M A) s a w' :
  m (world s) = (Normal a, w') →
  Page.engine m s = (Normal a, with_world (λ _, w') s).
Proof. unfold Page.engine. by intros ->. Qed.

Lemma page_bind_engine (m : M A) (k : A → Page.M B) s a w' :
  m (world s) = (Normal a, w') →
  Page.bind (Page.engine m) k s = k a (with_world (λ _, w') s).
Proof. intros H. apply page_bind_normal, engine_normal, H. Qed.

(** A bind continues from the state its first part leaves, or stops
    there. *)
Lemma page_bind_cases (m : Page.M A) (k : A → Page.M B) s :
  (∃ a, Page.bind m k s = k a (Page.exec m s)) ∨
  (∃ e, Page.bind m k s = (Throw e, Page.exec m s)).
Proof.
  unfold Page.bind, Page.exec. destruct (m s) as [[a|e] s']; eauto.
Qed.

End PageLaws.

#[local] Arguments Page.bind : simpl never.
#[local] Arguments Page.gets : simpl never.
#[local] Arguments Page.modify : simpl never.
#[local] Arguments Page.ret : simpl never.
#[local] Arguments Page.throw : simpl never.
#[local] Arguments Page.engine : simpl never.

Lemma with_world_mk f w t k b :
  with_world f {| world := w; timer := t; streak := k; browser := b |}
  = {| world := f w; timer := t; streak := k; browser := b |}.
Proof. reflexivity. Qed.

Lemma with_timer_mk f w t k b :
  with_timer f {| world := w; timer := t; streak := k; browser := b |}
  = {| world := w; timer := f t; streak := k; browser := b |}.
Proof. reflexivity. Qed.

Lemma with_streak_mk f w t k b :
  with_streak f {| world := w; timer := t; streak := k; browser := b |}
  = {| world := w; timer := t; streak := f k; browser := b |}.
Proof. reflexivity. Qed.

Lemma with_browser_mk f w t k b :
  with_browser f {| world := w; timer := t; streak := k; browser := b |}
  = {| world := w; timer := t; streak := k; browser := f b |}.
Proof. reflexivity. Qed.

Ltac page_step :=
  first
    [ rewrite page_bind_bind
    | rewrite page_bind_ret
    | rewrite page_bind_gets
    | rewrite page_bind_modify
    | rewrite page_bind_throw
    | rewrite with_world_mk
    | rewrite with_timer_mk
    | rewrite with_streak_mk
    | rewrite with_browser_mk
    | progress cbn ].

Ltac page_run := repeat page_step.

Section TimerSteps.
Local Open Scope page_scope.

Lemma start_eq s : Timer.start s = (Normal tt, started s).
Proof.
  destruct s as [w t k b]. unfold Timer.start, started. page_run.
  destruct (isRunning t); cbn [negb]; [reflexivity|].
  unfold Timer.set_isRunning, setInterval, Timer.set_interval. by page_run.
Qed.

Lemma pause_eq s : Timer.pause s = (Normal tt, halted s).
Proof.
  destruct s as [w t k b]. unfold Timer.pause, halted, Timer.set_isRunning.
  page_run. by destruct (interval t) as [[|id]|].
Qed.

Lemma write_textContent_eq id text s :
  is_Some (document (world s) !! id) →
  write_textContent id text s
  = (Normal tt, with_world (with_document (text_written id text)) s).
Proof.
  intros [el Hel]. destruct s as [w t k b]. cbn in Hel.
  unfold write_textContent. 
  rewrite (page_bind_engine _ _ _ (Some el) w).
  2:{ unfold getElementById, gets. cbn. by rewrite Hel. }
  page_run. reflexivity.
Qed.

Lemma page_bind_write {B} id text (k : unit → Page.M B) s :
  is_Some (document (world s) !! id) →
  Page.bind (write_textContent id text) k s
  = k tt (with_world (with_document (text_written id text)) s).
Proof.
  intros H. apply page_bind_normal. by apply write_textContent_eq.
Qed.


Lemma write_textContent_missing id text s :
  document (world s) !! id = None →
  write_textContent id text s = (Throw TypeError, s).
Proof.
  intros Hel. destruct s as [w t k b]. cbn in Hel.
  unfold write_textContent.
  rewrite (page_bind_engine _ _ _ None w).
  2:{ unfold getElementById, gets. cbn. by rewrite Hel. }
  page_run. by destruct w.
Qed.

End TimerSteps.


Section Display.
Local Open Scope page_scope.

Lemma is_Some_text_written id text (d : Document) j :
  is_Some (text_written id text d !! j) ↔ is_Some (d !! j).
Proof.
  unfold text_written, Document in *.
  destruct (decide (id = j)) as [->|Hne].
  - rewrite lookup_alter_eq. apply fmap_is_Some.
  - by rewrite lookup_alter_ne.
Qed.

Lemma has_timer_display_text_written id text d :
  has_timer_display (text_written id text d) ↔ has_timer_display d.
Proof. unfold has_timer_display. by rewrite !is_Some_text_written. Qed.

Lemma updateDisplay_eq s :
  has_timer_display (document (world s)) →
  Timer.updateDisplay s = (Normal tt, displayed s).
Proof.
  intros (Hd & Hm & Hp). unfold Timer.updateDisplay, displayed.
  rewrite page_bind_gets.
  rewrite (page_bind_normal _ _ _ _ _ (write_textContent_eq _ _ _ Hd)).
  rewrite (page_bind_normal _ _ _ tt
    (with_world (with_document (text_written "timerMode"
       (label (Timer.modes (currentMode (timer s))))))
       (with_world (with_document (text_written "timerDisplay"
          (timeString (timeRemaining (timer s))))) s))).
  2:{ apply write_textContent_eq. destruct s as [[] ? ? ?]. cbn in *.
      by apply is_Some_text_written. }
  destruct Hp as [el Hel].
  destruct s as [[e h d a] t k b]. cbn in Hel.
  rewrite (page_bind_engine _ _ _ (Some el)
    {| this := e; heap := h;
       document := text_written "timerMode"
          (label (Timer.modes (currentMode t)))
          (text_written "timerDisplay" (timeString (timeRemaining t)) d);
       autoplay := a |}).
  2:{ unfold getElementById, gets. cbn.
      unfold text_written, Document in *.
      by rewrite !lookup_alter_ne, Hel by done. }
  reflexivity.
Qed.

End Display.

(** ** Methods that leave the countdown alone *)

Section Inert.
Local Open Scope page_scope.
Context {A B : Type}.

Lemma inert_ret (a : A) : inert (Page.ret a).
Proof. by intros s. Qed.

Lemma inert_throw e : inert (Page.throw (A := A) e).
Proof. by intros s. Qed.

Lemma inert_gets (f : App → A) : inert (Page.gets f).
Proof. by intros s. Qed.

Lemma inert_engine (m : M A) : inert (Page.engine m).
Proof. by intros []. Qed.

Lemma inert_modify f :
  (∀ s, clock (f s) = clock s) → inert (Page.modify f).
Proof. intros H s. apply H. Qed.

Lemma inert_bind (m : Page.M A) (k : A → Page.M B) :
  inert m → (∀ a, inert (k a)) → inert (Page.bind m k).
Proof.
  intros Hm Hk s. specialize (Hm s). unfold Page.exec, Page.bind in *.
  destruct (m s) as [[a|e] s']; cbn in *; [|done].
  by rewrite <- Hm, <- (Hk a s').
Qed.

End Inert.

Ltac inert_step :=
  first
    [ apply inert_ret
    | apply inert_throw
    | apply inert_gets
    | apply inert_engine
    | apply inert_modify; by intros [? ? ? []]
    | apply inert_bind; [|intros ?]
    | progress case_match ].

Section InertMethods.

Lemma inert_write_textContent id text : inert (write_textContent id text).
Proof. unfold write_textContent. repeat inert_step. Qed.

Lemma inert_updateDisplay : inert Timer.updateDisplay.
Proof.
  unfold Timer.updateDisplay, set_strokeDashoffset, set_title.
  repeat first [apply inert_write_textContent | inert_step].
Qed.

Lemma inert_setTimeout cb ms : inert (setTimeout cb ms).
Proof. unfold setTimeout. repeat inert_step. Qed.

Lemma inert_showReward random : inert (Timer.showReward random).
Proof.
  unfold Timer.showReward.
  repeat first [apply inert_write_textContent | apply inert_setTimeout
               | inert_step].
Qed.

Lemma inert_showNotification : inert Timer.showNotification.
Proof. unfold Timer.showNotification, platform. repeat inert_step. Qed.

Lemma inert_playNotificationSound : inert Timer.playNotificationSound.
Proof. unfold Timer.playNotificationSound, platform. repeat inert_step. Qed.

Lemma inert_incrementStreak today : inert (Streak.incrementStreak today).
Proof.
  unfold Streak.incrementStreak, Streak.updateDisplay, set_streakData.
  repeat first [apply inert_write_textContent | inert_step].
Qed.

Lemma inert_write_status n b : inert (write_status n b).
Proof. unfold write_status. repeat inert_step. Qed.

Lemma inert_set_startBtn f : inert (set_startBtn f).
Proof. unfold set_startBtn. repeat inert_step. Qed.

End InertMethods.


(** ** The invariants of the countdown *)

Section Keeps.
Local Open Scope page_scope.
Context {A B : Type} (I : App → Prop).

Lemma keeps_bind_at (m : Page.M A) (k : A → Page.M B) s :
  I (Page.exec m s) → (∀ a, keeps I (k a)) →
  I (Page.exec (Page.bind m k) s).
Proof.
  intros Hm Hk. unfold Page.exec at 1.
  destruct (page_bind_cases m k s) as [[a ->]|[e ->]].
  - apply Hk, Hm.
  - apply Hm.
Qed.

Lemma keeps_bind (m : Page.M A) (k : A → Page.M B) :
  keeps I m → (∀ a, keeps I (k a)) → keeps I (Page.bind m k).
Proof. intros Hm Hk s Hs. apply keeps_bind_at; [apply Hm, Hs|apply Hk]. Qed.

Lemma keeps_gets_bind (f : App → A) (k : A → Page.M B) :
  (∀ s, I s → I (Page.exec (k (f s)) s)) →
  keeps I (Page.bind (Page.gets f) k).
Proof. intros H s Hs. apply H, Hs. Qed.

Lemma keeps_ret (a : A) : keeps I (Page.ret a).
Proof. by intros s. Qed.

Lemma keeps_inert (m : Page.M A) :
  (∀ s s', clock s = clock s' → I s → I s') → inert m → keeps I m.
Proof. intros HI Hm s Hs. by apply (HI s); [symmetry; apply Hm|]. Qed.

End Keeps.

(** A property of the countdown that the five steps of the timer keep is
    kept by every event, also by one that throws on the way. *)
Section TimerInvariant.
Local Open Scope page_scope.
Variable I : App → Prop.
Hypothesis I_clock : ∀ s s', clock s = clock s' → I s → I s'.
Hypothesis I_halted : ∀ s, I s → I (halted s).
Hypothesis I_started : ∀ s, I s → I (started s).
Hypothesis I_rewound : ∀ s, I s → I (rewound s).
Hypothesis I_retimed : ∀ n (f : PomodoroTimer → PomodoroTimer) s,
  (∀ t, isRunning (f t) = isRunning t ∧ interval (f t) = interval t) →
  I s →
  I (with_timer (λ t, with_timeRemaining n (with_totalTime n (f t))) s).
Hypothesis I_decremented : ∀ s,
  (0 < timeRemaining (timer s))%nat → I s →
  I (with_timer (with_timeRemaining (timeRemaining (timer s) - 1)) s).

Lemma kept_inert {A} (m : Page.M A) : inert m → keeps I m.
Proof using All. apply keeps_inert, I_clock. Qed.

Lemma kept_start : keeps I Timer.start.
Proof using All. intros s Hs. unfold Page.exec. rewrite start_eq. by apply I_started. Qed.

Lemma kept_pause : keeps I Timer.pause.
Proof using All. intros s Hs. unfold Page.exec. rewrite pause_eq. by apply I_halted. Qed.

Lemma kept_reset : keeps I Timer.reset.
Proof using All.
  unfold Timer.reset. apply keeps_bind; [apply kept_pause|intros _].
  apply keeps_gets_bind. intros s Hs.
  unfold Page.exec, Timer.set_timeRemaining. rewrite page_bind_modify.
  apply kept_inert; [|by apply I_rewound].
  apply inert_bind; [apply inert_updateDisplay|intros _; apply inert_engine].
Qed.

Lemma kept_setMode mode : keeps I (Timer.setMode mode).
Proof using All.
  unfold Timer.setMode. apply keeps_bind; [apply kept_pause|intros _].
  intros s Hs. unfold Page.exec.
  unfold Timer.set_currentMode, Timer.set_totalTime, Timer.set_timeRemaining.
  rewrite !page_bind_modify, page_bind_gets, page_bind_modify.
  apply kept_inert; [apply inert_updateDisplay|].
  destruct s as [w t k b].
  by apply (I_retimed _ (with_currentMode mode)
              {| world := w; timer := t; streak := k; browser := b |}).
Qed.

Lemma kept_setCustomDuration minutes :
  keeps I (Timer.setCustomDuration minutes).
Proof using All.
  unfold Timer.setCustomDuration.
  apply keeps_bind; [apply kept_pause|intros _].
  intros s Hs. unfold Page.exec.
  unfold Timer.set_totalTime, Timer.set_timeRemaining.
  rewrite !page_bind_modify, page_bind_gets, page_bind_modify.
  apply kept_inert; [apply inert_updateDisplay|].
  destruct s as [w t k b].
  by apply (I_retimed _ (λ t, t)
              {| world := w; timer := t; streak := k; browser := b |}).
Qed.

Lemma kept_complete random today : keeps I (Timer.complete random today).
Proof using All.
  unfold Timer.complete. apply keeps_bind; [apply kept_pause|intros _].
  apply keeps_bind;
    [apply kept_inert, inert_playNotificationSound|intros _].
  apply keeps_bind; [apply kept_inert, inert_showNotification|intros _].
  apply keeps_bind; [apply kept_inert, inert_showReward|intros _].
  apply keeps_bind; [apply kept_inert, inert_engine|intros _].
  apply keeps_gets_bind. intros s Hs.
  apply keeps_bind_at.
  { case_decide; [|done].
    by apply (kept_inert _ (inert_incrementStreak today)). }
  intros _. apply keeps_gets_bind. intros s' Hs'.
  unfold Page.exec, Timer.set_timeRemaining. rewrite page_bind_modify.
  apply kept_inert; [apply inert_updateDisplay|by apply I_rewound].
Qed.

Lemma kept_tick random today : keeps I (Timer.tick random today).
Proof using All.
  unfold Timer.tick. apply keeps_gets_bind. intros s Hs.
  case_bool_decide as Hr; [|by apply kept_complete].
  unfold Page.exec, Timer.set_timeRemaining. rewrite page_bind_modify.
  apply kept_inert; [apply inert_updateDisplay|]. by apply I_decremented.
Qed.

Lemma kept_startButtonClick c : keeps I (startButtonClick c).
Proof using All.
  unfold startButtonClick. apply keeps_gets_bind. intros s Hs.
  assert (Hgo : keeps I
            (Page.bind Timer.start (λ _, set_startBtn FacePause))).
  { apply keeps_bind; [apply kept_start|intros _].
    apply kept_inert, inert_set_startBtn. }
  destruct (isRunning (timer s)).
  { apply keeps_bind_at; [by apply kept_pause|intros _].
    apply kept_inert, inert_bind;
      [apply inert_engine|intros _; apply inert_set_startBtn]. }
  case_bool_decide.
  { apply keeps_bind_at; [by apply kept_start|intros _].
    apply kept_inert, inert_bind;
      [apply inert_engine|intros _; apply inert_set_startBtn]. }
  destruct c as [choice|]; [|done]. case_decide; [done|].
  apply keeps_bind_at.
  - apply kept_inert; [|done]. destruct (soundMap choice).
    + repeat first [apply inert_write_status | inert_step].
    + repeat inert_step.
    + repeat inert_step.
  - intros _. destruct (soundMap choice); try apply Hgo.
    case_decide; [apply Hgo|apply keeps_ret].
Qed.

Lemma kept_event e : keeps I (timer_event e).
Proof using All.
  destruct e as [c| |mode|minutes|id random today]; cbn [timer_event].
  - apply kept_startButtonClick.
  - unfold resetButtonClick. apply keeps_bind; [apply kept_reset|intros _].
    apply kept_inert, inert_set_startBtn.
  - apply kept_setMode.
  - apply kept_setCustomDuration.
  - unfold fire_interval. apply keeps_gets_bind. intros s Hs.
    destruct (intervals (browser s) !! id) as [[]|]; try done.
    by apply kept_tick.
Qed.

Lemma kept_events es : ∀ s, I s → I (timer_events es s).
Proof using All.
  unfold timer_events.
  induction es as [|e es IH]; intros s Hs; cbn [foldl]; [done|].
  by apply IH, kept_event.
Qed.

End TimerInvariant.



(** X12. Whatever the user clicks and however often the interval fires, the
    time left never exceeds the length of the session. *)
Theorem time_left_is_within_the_session (es : list TimerEvent) (s : App) :
  InTime s → InTime (timer_events es s).
Proof.
  apply kept_events; clear s.
  - unfold clock, InTime. by intros s s' [= <- _].
  - by intros [w [m r run [[|i]|] T] k b].
  - by intros [w [m r [] i T] k b].
  - intros [w [m r run i T] k b]. unfold InTime. cbn. lia.
  - intros n f [w t k b] Hf. unfold InTime. cbn. lia.
  - intros [w [m r run i T] k b]. unfold InTime. cbn. lia.
Qed.

Lemma time_left_is_within_the_session_witness :
  InTime
    (timer_events
       [SetCustomDuration 50; ClickStart (Some "3");
        IntervalFires 1 0 "Mon Nov 02 2026"; SetMode long]
       (loaded (timer_page (λ _, 70%Z)) suspended)).
Proof.
  apply time_left_is_within_the_session. unfold InTime. cbn. lia.
Defined.


(** ** The elements of the page stay *)

Section Elements.

Lemma is_Some_status_written n text cls (d : Document) id :
  is_Some (status_written n text cls d !! id) ↔ is_Some (d !! id).
Proof.
  unfold status_written, Document in *. case_match; [|done].
  destruct (decide (key n +:+ "Status" = id)) as [<-|Hne].
  - rewrite lookup_alter_eq. apply fmap_is_Some.
  - by rewrite lookup_alter_ne.
Qed.


Lemma is_Some_pause_step n w id :
  is_Some (document (pause_step n w) !! id) ↔ is_Some (document w !! id).
Proof.
  unfold pause_step. case_match; [|done]. apply is_Some_status_written.
Qed.


Lemma is_Some_paused w id :
  is_Some (document (paused w) !! id) ↔ is_Some (document w !! id).
Proof.
  unfold paused, sound_keys. cbn [foldl]. by rewrite !is_Some_pause_step.
Qed.

Lemma is_Some_resumed w id :
  is_Some (document (resumed w) !! id) ↔ is_Some (document w !! id).
Proof.
  unfold resumed. case_match; [|done].
  change (document (with_document ?f ?w)) with (f (document w)).
  by rewrite is_Some_status_written, document_toggled.
Qed.



End Elements.

(** ** The methods of the timer on a page that has its elements *)

Section TimerEquations.
Local Open Scope page_scope.



Lemma incrementStreak_eq today s :
  is_Some (document (world s) !! "streakCount") →
  Streak.incrementStreak today s = (Normal tt, streak_counted today s).
Proof.
  intros Hel. unfold Streak.incrementStreak, streak_counted, stored_streak.
  rewrite page_bind_gets. case_decide; [|reflexivity].
  unfold set_streakData, Streak.updateDisplay.
  rewrite page_bind_modify, page_bind_gets, page_bind_modify, page_bind_gets.
  rewrite write_textContent_eq by (by destruct s).
  by destruct s.
Qed.

Lemma incrementStreak_missing today s :
  document (world s) !! "streakCount" = None →
  Streak.incrementStreak today s
  = if decide (lastDate (stored_streak s) ≠ Some today)
    then (Throw TypeError, streak_stored today s)
    else (Normal tt, s).
Proof.
  intros Hel. unfold Streak.incrementStreak, stored_streak.
  rewrite page_bind_gets. case_decide; [|reflexivity].
  unfold set_streakData, Streak.updateDisplay.
  rewrite page_bind_modify, page_bind_gets, page_bind_modify, page_bind_gets.
  rewrite write_textContent_missing by (by destruct s).
  by destruct s.
Qed.





Lemma reset_eq s :
  has_timer_display (document (world s)) →
  Timer.reset s
  = (Normal tt, with_world all_stopped (displayed (rewound (halted s)))).
Proof.
  intros Hd. unfold Timer.reset.
  rewrite (page_bind_normal _ _ _ _ _ (pause_eq s)).
  rewrite page_bind_gets. unfold Timer.set_timeRemaining.
  rewrite page_bind_modify.
  rewrite (page_bind_normal _ _ _ tt (displayed (rewound (halted s)))).
  2:{ apply updateDisplay_eq.
      by destruct s as [w [m r run [[|i]|] T] k b]. }
  rewrite (engine_normal _ _ _ _ (stopAllSounds_eq _)).
  by destruct s as [w [m r run [[|i]|] T] k b].
Qed.

End TimerEquations.


(** ** Counting down *)

Section Countdown.
Local Open Scope page_scope.

Lemma tick_down_eq random today s :
  (0 < timeRemaining (timer s))%nat →
  has_timer_display (document (world s)) →
  Timer.tick random today s
  = (Normal tt,
     displayed
       (with_timer (with_timeRemaining (timeRemaining (timer s) - 1)) s)).
Proof.
  intros Hr Hd. unfold Timer.tick. rewrite page_bind_gets.
  rewrite bool_decide_true by done.
  unfold Timer.set_timeRemaining. rewrite page_bind_modify.
  apply updateDisplay_eq. by destruct s.
Qed.

Lemma has_timer_display_displayed s :
  has_timer_display (document (world (displayed s)))
  ↔ has_timer_display (document (world s)).
Proof.
  destruct s as [[e h d a] t k b]. unfold displayed. cbn.
  by rewrite !has_timer_display_text_written.
Qed.

Lemma timerDisplay_displayed s :
  is_Some (document (world s) !! "timerDisplay") →
  textContent <$> document (world (displayed s)) !! "timerDisplay"
  = Some (timeString (timeRemaining (timer s))).
Proof.
  intros [el Hel]. destruct s as [[e h d a] t k b]. cbn in Hel.
  unfold displayed, text_written. cbn. unfold Document in *.
  rewrite lookup_alter_ne by done. by rewrite lookup_alter_eq, Hel.
Qed.

End Countdown.

Lemma ticks_down (randoms : list Q) (today : string) :
  ∀ s : App,
  has_timer_display (document (world s)) →
  (length randoms ≤ timeRemaining (timer s))%nat →
  let left := (timeRemaining (timer s) - length randoms)%nat in
  let s' := (ticks randoms today s).2 in
  (ticks randoms today s).1 = replicate (length randoms) (Normal tt) ∧
  timer s' = with_timeRemaining left (timer s) ∧
  intervals (browser s') = intervals (browser s) ∧
  this (world s') = this (world s) ∧
  heap (world s') = heap (world s) ∧
  streak s' = streak s ∧
  startBtn (browser s') = startBtn (browser s) ∧
  has_timer_display (document (world s')) ∧
  (randoms ≠ [] →
   textContent <$> document (world s') !! "timerDisplay"
   = Some (timeString left) ∧
   title (browser s') = timeString left +:+ " - Study Room").
Proof.
  induction randoms as [|r rs IH]; intros s Hd Hk; cbn [length] in *.
  { cbn. rewrite Nat.sub_0_r. by destruct s as [w [] k b]. }
  cbn [ticks]. rewrite tick_down_eq by (done || lia).
  set (s1 := displayed _).
  assert (Hd1 : has_timer_display (document (world s1))).
  { apply has_timer_display_displayed. by destruct s. }
  assert (Ht1 : timer s1
                = with_timeRemaining (timeRemaining (timer s) - 1) (timer s)).
  { by destruct s. }
  assert (Hk1 : (length rs ≤ timeRemaining (timer s1))%nat).
  { rewrite Ht1. cbn. lia. }
  specialize (IH s1 Hd1 Hk1).
  assert (Hshow1 :
    textContent <$> document (world s1) !! "timerDisplay"
    = Some (timeString (timeRemaining (timer s) - 1)) ∧
    title (browser s1)
    = timeString (timeRemaining (timer s) - 1) +:+ " - Study Room").
  { split.
    - unfold s1. rewrite timerDisplay_displayed; [by destruct s|].
      destruct Hd as [Hd _]. by destruct s.
    - by destruct s as [[] ? ? []]. }
  destruct (ticks rs today s1) as [cs s2] eqn:Hticks. cbn [fst snd] in *.
  destruct IH as (-> & Ht & Hi & He & Hh & Hs & Hb & Hd2 & Hshow).
  replace (timeRemaining (timer s1) - length rs)%nat
    with (timeRemaining (timer s) - S (length rs))%nat in *
    by (rewrite Ht1; cbn; lia).
  split; [done|]. rewrite Ht, Hi, He, Hh, Hs, Hb, Ht1.
  split; [done|]. do 5 (split; [by destruct s as [[] ? ? []]|]).
  split; [exact Hd2|].
  intros _. destruct rs as [|r' rs]; [|by apply Hshow].
  cbn in Hticks. injection Hticks as <-. exact Hshow1.
Qed.

(** X13. On a page that has the timer's elements, [tick()] called [k]
    times with at least [k] seconds left completes normally each time and
    only counts down: the time left is [k] less, the timer is otherwise the
    same and so are the intervals, the engine, the audio graph and the
    streak; after the last tick the display and the title of the page show
    the time left. *)
Theorem ticks_only_count_down (randoms : list Q) (today : string) (s : App) :
  has_timer_display (document (world s)) →
  (length randoms ≤ timeRemaining (timer s))%nat →
  let left := (timeRemaining (timer s) - length randoms)%nat in
  let s' := (ticks randoms today s).2 in
  (ticks randoms today s).1 = replicate (length randoms) (Normal tt) ∧
  timer s' = with_timeRemaining left (timer s) ∧
  intervals (browser s') = intervals (browser s) ∧
  this (world s') = this (world s) ∧
  heap (world s') = heap (world s) ∧
  streak s' = streak s ∧
  (randoms ≠ [] →
   textContent <$> document (world s') !! "timerDisplay"
   = Some (timeString left) ∧
   title (browser s') = timeString left +:+ " - Study Room").
Proof.
  intros Hd Hk.
  destruct (ticks_down randoms today s Hd Hk)
    as (H1 & H2 & H3 & H4 & H5 & H6 & _ & _ & H7).
  exact (conj H1 (conj H2 (conj H3 (conj H4 (conj H5 (conj H6 H7)))))).
Qed.

Lemma ticks_only_count_down_witness :
  let s := loaded (timer_page (λ _, 70%Z)) running in
  let s' := (ticks [0; 0; 0]%Q "Mon Nov 02 2026" s).2 in
  timeRemaining (timer s') = 1497%nat ∧
  textContent <$> document (world s') !! "timerDisplay" = Some "24:57".
Proof.
  intros s.
  assert (Hd : has_timer_display (document (world s))).
  { vm_compute. repeat split; eexists; reflexivity. }
  assert (Hk : (length [0; 0; 0]%Q ≤ timeRemaining (timer s))%nat).
  { cbn. lia. }
  destruct (ticks_only_count_down [0; 0; 0]%Q "Mon Nov 02 2026" s Hd Hk)
    as (_ & Ht & _ & _ & _ & _ & Hshow).
  destruct Hshow as [Hshow _]; [done|].
  split; [by rewrite Ht|exact Hshow].
Defined.

Section Completion.

Lemma playing_all_stopped n w : playing (sound_of n (all_stopped w)) = false.
Proof.
  unfold all_stopped, sound_keys. cbn [foldl].
  change (sound_of n (with_this ?f ?w)) with (sound_of n w).
  rewrite !sound_of_stop_step.
  destruct n;
    repeat first [ rewrite decide_True by reflexivity
                 | rewrite decide_False by discriminate ];
    repeat (case_match; try reflexivity; try congruence).
Qed.

Lemma current_all_stopped w : currentPlayingSound (this (all_stopped w)) = None.
Proof. reflexivity. Qed.

End Completion.

Section Finished.









End Finished.




(** ** The reset button *)

Section ResetButton.
Local Open Scope page_scope.

Lemma page_bind_write_missing {B} id text (k : unit → Page.M B) s :
  document (world s) !! id = None →
  Page.bind (write_textContent id text) k s = (Throw TypeError, s).
Proof.
  intros H. apply page_bind_thrown. by apply write_textContent_missing.
Qed.

(** Without one of its elements [updateDisplay] throws, and has changed
    what the elements before it show at most. *)
Lemma updateDisplay_missing s :
  ¬ has_timer_display (document (world s)) →
  ∃ f, Timer.updateDisplay s
       = (Throw TypeError, with_world (with_document f) s).
Proof.
  intros Hd. unfold Timer.updateDisplay. rewrite page_bind_gets.
  destruct (document (world s) !! "timerDisplay") as [el1|] eqn:H1.
  2:{ exists (λ d, d). rewrite page_bind_write_missing by done.
      by destruct s as [[] ? ? ?]. }
  rewrite page_bind_write by (by rewrite H1).
  destruct (document (world s) !! "timerMode") as [el2|] eqn:H2.
  2:{ exists (text_written "timerDisplay"
                (timeString (timeRemaining (timer s)))).
      rewrite page_bind_write_missing; [reflexivity|].
      destruct s as [[e h d a] t k b]. cbn in *.
      unfold text_written, Document in *. by rewrite lookup_alter_ne. }
  rewrite page_bind_write.
  2:{ destruct s as [[e h d a] t k b]. cbn in *.
      apply is_Some_text_written. by rewrite H2. }
  destruct (document (world s) !! "timerProgress") as [el3|] eqn:H3.
  { destruct Hd. unfold has_timer_display. rewrite H1, H2, H3.
    by repeat split. }
  exists (λ d, text_written "timerMode"
                 (label (Timer.modes (currentMode (timer s))))
                 (text_written "timerDisplay"
                    (timeString (timeRemaining (timer s))) d)).
  rewrite (page_bind_engine _ _ _ None
    (world (with_world (with_document (text_written "timerMode"
       (label (Timer.modes (currentMode (timer s))))))
       (with_world (with_document (text_written "timerDisplay"
          (timeString (timeRemaining (timer s))))) s)))).
  2:{ destruct s as [[e h d a] t k b]. cbn in *.
      unfold getElementById, gets, text_written, Document in *. cbn.
      by rewrite !lookup_alter_ne, H3 by done. }
  rewrite page_bind_throw.
  destruct s as [[e h d a] t k b]. cbn. reflexivity.
Qed.

Lemma resetButtonClick_eq s :
  has_timer_display (document (world s)) →
  resetButtonClick s
  = (Normal tt,
     with_browser (with_startBtn FaceStart)
       (with_world all_stopped (displayed (rewound (halted s))))).
Proof.
  intros Hd. unfold resetButtonClick.
  by rewrite (page_bind_normal _ _ _ _ _ (reset_eq _ Hd)).
Qed.

End ResetButton.


Section OtherElements.

Lemma lookup_status_written_ne n text cls (d : Document) id :
  id ≠ key n +:+ "Status" →
  status_written n text cls d !! id = d !! id.
Proof.
  intros Hne. unfold status_written, Document in *. case_match; [|done].
  by rewrite lookup_alter_ne.
Qed.

Lemma lookup_all_stopped_ne w id :
  (∀ n, id ≠ key n +:+ "Status") →
  document (all_stopped w) !! id = document w !! id.
Proof.
  intros Hne. unfold all_stopped, sound_keys. cbn [foldl].
  change (document (with_this ?f ?w)) with (document w).
  assert (H : ∀ n w, document (stop_step n w) !! id = document w !! id).
  { intros n w0. unfold stop_step. case_match; [|done].
    apply lookup_status_written_ne, Hne. }
  by rewrite !H.
Qed.

Lemma timerDisplay_not_status n : "timerDisplay" ≠ key n +:+ "Status".
Proof. by destruct n. Qed.

End OtherElements.

(** X15. On a page that has the timer's elements a click on the reset
    button completes normally and leaves the timer stopped with the whole
    session left, the display showing it, the button offering Start, no
    channel playing and none remembered. *)
Theorem reset_button_stops_timer_and_sounds (s : App) :
  has_timer_display (document (world s)) →
  let s' := Page.exec resetButtonClick s in
  Page.result resetButtonClick s = Normal tt ∧
  isRunning (timer s') = false ∧
  timeRemaining (timer s') = totalTime (timer s) ∧
  totalTime (timer s') = totalTime (timer s) ∧
  startBtn (browser s') = FaceStart ∧
  (∀ n, playing (sound_of n (world s')) = false) ∧
  currentPlayingSound (this (world s')) = None ∧
  textContent <$> document (world s') !! "timerDisplay"
  = Some (timeString (totalTime (timer s))).
Proof.
  intros Hd. unfold Page.exec, Page.result.
  rewrite resetButtonClick_eq by done. cbn [fst snd].
  split; [done|].
  split; [by destruct s as [w [m r run [[|i]|] T] k b]|].
  split; [by destruct s as [w [m r run [[|i]|] T] k b]|].
  split; [by destruct s as [w [m r run [[|i]|] T] k b]|].
  split; [done|]. split; [|split].
  - intros n. apply playing_all_stopped.
  - done.
  - set (s1 := rewound (halted s)).
    assert (H1 : is_Some (document (world s1) !! "timerDisplay")).
    { destruct Hd as [Hd _].
      by destruct s as [w [m r run [[|i]|] T] k b]. }
    pose proof (timerDisplay_displayed s1 H1) as Hshow.
    replace (timeRemaining (timer s1)) with (totalTime (timer s)) in Hshow
      by (by destruct s as [w [m r run [[|i]|] T] k b]).
    rewrite <- Hshow.
    change (document (world (with_browser ?f (with_world ?g ?x))))
      with (document (g (world x))).
    by rewrite (lookup_all_stopped_ne _ _ timerDisplay_not_status).
Qed.

Lemma reset_button_stops_timer_and_sounds_witness :
  let s0 := loaded (timer_page (λ _, 70%Z)) suspended in
  let s := Page.exec (startButtonClick (Some "2")) s0 in
  let s' := Page.exec resetButtonClick s in
  playing (sound_of alpha (world s)) = true ∧
  isRunning (timer s) = true ∧
  playing (sound_of alpha (world s')) = false ∧
  isRunning (timer s') = false.
Proof.
  intros s0 s.
  assert (Hd : has_timer_display (document (world s))).
  { vm_compute. repeat split; eexists; reflexivity. }
  destruct (reset_button_stops_timer_and_sounds s Hd)
    as (_ & Hrun & _ & _ & _ & Hp & _).
  split; [vm_compute; reflexivity|]. split; [vm_compute; reflexivity|].
  split; [apply Hp|exact Hrun].
Defined.

(** X16. On a page that lacks one of the timer's elements a click on the
    reset button throws a TypeError after the timer has been stopped and
    rewound and before the sounds are stopped: every channel, the audio
    graph and the remembered channel are as they were, and the button keeps
    its face. *)
Theorem reset_without_display_leaves_the_sounds (s : App) :
  ¬ has_timer_display (document (world s)) →
  let s' := Page.exec resetButtonClick s in
  Page.result resetButtonClick s = Throw TypeError ∧
  isRunning (timer s') = false ∧
  timeRemaining (timer s') = totalTime (timer s) ∧
  this (world s') = this (world s) ∧
  heap (world s') = heap (world s) ∧
  startBtn (browser s') = startBtn (browser s).
Proof.
  intros Hd. unfold Page.exec, Page.result, resetButtonClick, Timer.reset.
  rewrite !page_bind_bind.
  rewrite (page_bind_normal _ _ _ _ _ (pause_eq s)).
  rewrite page_bind_bind, page_bind_gets, page_bind_bind.
  unfold Timer.set_timeRemaining. rewrite page_bind_modify.
  rewrite page_bind_bind.
  destruct (updateDisplay_missing (rewound (halted s))) as [f Hf].
  { by destruct s as [w [m r run [[|i]|] T] k b]. }
  fold (rewound (halted s)).
  rewrite (page_bind_thrown _ _ _ _ _ Hf). cbn [fst snd].
  by destruct s as [[e h d a] [m r run [[|i]|] T] k b].
Qed.

Lemma reset_without_display_leaves_the_sounds_witness :
  let s0 := loaded (page (λ _, 70%Z)) running in
  let s := Page.exec (startButtonClick (Some "2")) s0 in
  let s' := Page.exec resetButtonClick s in
  playing (sound_of alpha (world s)) = true ∧
  Page.result resetButtonClick s = Throw TypeError ∧
  this (world s') = this (world s).
Proof.
  intros s0 s.
  assert (Hd : ¬ has_timer_display (document (world s))).
  { vm_compute. by intros [[? [=]] _]. }
  destruct (reset_without_display_leaves_the_sounds s Hd)
    as (Hr & _ & _ & He & _).
  split; [vm_compute; reflexivity|]. split; [exact Hr|exact He].
Defined.


(** ** The start button *)

Section StartButton.
Local Open Scope page_scope.

Lemma startButtonClick_running c s :
  isRunning (timer s) = true →
  startButtonClick c s
  = (Normal tt,
     with_browser (with_startBtn FaceStart)
       (with_world paused (halted s))).
Proof.
  intros Hrun. unfold startButtonClick. rewrite page_bind_gets, Hrun.
  rewrite (page_bind_normal _ _ _ _ _ (pause_eq s)).
  rewrite (page_bind_engine _ _ _ _ _ (pauseSounds_eq _)).
  by destruct s as [w [m r run [[|i]|] T] k b].
Qed.

Lemma startButtonClick_resume c s :
  isRunning (timer s) = false →
  (timeRemaining (timer s) < totalTime (timer s))%nat →
  startButtonClick c s
  = (Normal tt,
     with_browser (with_startBtn FacePause)
       (with_world resumed (started s))).
Proof.
  intros Hrun Hlt. unfold startButtonClick. rewrite page_bind_gets, Hrun.
  rewrite bool_decide_true by done.
  rewrite (page_bind_normal _ _ _ _ _ (start_eq s)).
  rewrite (page_bind_engine _ _ _ _ _ (resumeSounds_eq _)).
  destruct s as [w [m r run i T] k b]. cbn in Hrun. by subst run.
Qed.

Lemma write_status_eq n b s :
  write_status n b s
  = (Normal tt,
     with_world
       (with_document
          (status_written n (if b then "Playing" else "")
                          (classList_toggle "playing" b))) s).
Proof.
  unfold write_status.
  rewrite (page_bind_engine _ _ _
             (document (world s) !! (key n +:+ "Status")) (world s))
    by reflexivity.
  destruct s as [[e h d a] t k br]. cbn [world document].
  unfold with_world, with_document, status_written.
  cbn [world document this heap autoplay timer streak browser].
  destruct (d !! (key n +:+ "Status")) as [el|]; reflexivity.
Qed.

Lemma soundMap_chosen choice n :
  soundMap choice = Chosen n →
  choice ≠ "" ∧ choice ≠ "0" ∧ Some choice ∈ valid_answers.
Proof.
  unfold soundMap, valid_answers.
  repeat case_decide; try discriminate; subst; intros _;
    (split; [done|split; [done|]]); rewrite !elem_of_cons; auto 10.
Qed.

Lemma soundMap_other choice :
  Some choice ∉ valid_answers →
  choice ≠ "0" ∧
  soundMap choice
  = if decide (choice ∈ inherited_keys) then Inherited else Absent.
Proof.
  intros Hv.
  assert (H : ∀ c, Some c ∈ valid_answers → choice ≠ c).
  { by intros c Hc ->. }
  assert (Hin : ∀ c, c ∈ ["0"; "1"; "2"; "3"; "4"; "5"] →
                     Some c ∈ valid_answers).
  { intros c Hc. unfold valid_answers.
    change (Some c ∈ Some <$> ["0"; "1"; "2"; "3"; "4"; "5"]).
    by apply list_elem_of_fmap_2. }
  split.
  - apply H, Hin. rewrite !elem_of_cons. auto 10.
  - unfold soundMap.
    by do 5 (rewrite decide_False
               by (apply H, Hin; rewrite !elem_of_cons; auto 10)).
Qed.

Lemma startButtonClick_chosen choice n s :
  isRunning (timer s) = false →
  ¬ (timeRemaining (timer s) < totalTime (timer s))%nat →
  soundMap choice = Chosen n →
  startButtonClick (Some choice) s
  = (Normal tt,
     with_browser (with_startBtn FacePause)
       (started (with_world (chosen n) s))).
Proof.
  intros Hrun Hlt Hc. unfold startButtonClick.
  rewrite page_bind_gets, Hrun. rewrite bool_decide_false by done.
  destruct (soundMap_chosen _ _ Hc) as (Hne & _ & _).
  rewrite decide_False by done. rewrite Hc. cbv beta iota.
  rewrite !page_bind_bind.
  rewrite (page_bind_engine _ _ _ _ _ (toggleSound_eq _ _)).
  rewrite page_bind_bind.
  rewrite (page_bind_normal _ _ _ _ _ (write_status_eq _ _ _)).
  unfold set_currentPlayingSound.
  rewrite (page_bind_engine _ _ _ tt
    (chosen n (world s))).
  2:{ destruct s as [[e h d a] t k br]. unfold chosen. cbn.
      unfold modify. by destruct (toggled n _). }
  erewrite page_bind_normal by apply start_eq.
  by destruct s as [[e h d a] t k br].
Qed.

Lemma startButtonClick_silent s :
  isRunning (timer s) = false →
  ¬ (timeRemaining (timer s) < totalTime (timer s))%nat →
  startButtonClick (Some "0") s
  = (Normal tt,
     with_browser (with_startBtn FacePause)
       (started
          (with_world (with_this (with_currentPlayingSound None)) s))).
Proof.
  intros Hrun Hlt. unfold startButtonClick.
  rewrite page_bind_gets, Hrun. rewrite bool_decide_false by done.
  rewrite decide_False by done.
  change (soundMap "0") with Absent. cbn iota.
  rewrite decide_True by done. unfold set_currentPlayingSound.
  rewrite (page_bind_engine _ _ _ tt
    (with_this (with_currentPlayingSound None) (world s))) by reflexivity.
  rewrite decide_True by done.
  erewrite page_bind_normal by apply start_eq.
  by destruct s as [[e h d a] t k br].
Qed.

Lemma startButtonClick_other answer s :
  isRunning (timer s) = false →
  ¬ (timeRemaining (timer s) < totalTime (timer s))%nat →
  answer ∉ valid_answers →
  startButtonClick answer s
  = match answer with
    | Some choice =>
        if decide (choice ∈ inherited_keys)
        then (Throw TypeError, with_world initialised s)
        else (Normal tt, s)
    | None => (Normal tt, s)
    end.
Proof.
  intros Hrun Hlt Hv. unfold startButtonClick.
  rewrite page_bind_gets, Hrun. rewrite bool_decide_false by done.
  destruct answer as [choice|]; [|done].
  destruct (soundMap_other choice Hv) as [H0 ->].
  destruct (decide (choice = "")) as [->|He].
  { rewrite decide_False; [done|].
    unfold inherited_keys. rewrite !elem_of_cons, elem_of_nil.
    intros H. repeat (destruct H as [H|H]; [discriminate H|]). done. }
  destruct (decide (choice ∈ inherited_keys)) as [Hi|Hi].
  - rewrite page_bind_bind.
    rewrite (page_bind_engine _ _ _ _ _ (initAudioContext_eq _)).
    rewrite !page_bind_throw. by destruct s.
  - rewrite decide_False by done.
    by rewrite page_bind_ret, decide_False by done.
Qed.

End StartButton.

Section Chosen.

Lemma sound_of_chosen d n w :
  sound_of d (chosen n w) = sound_of d (toggled n w).
Proof. reflexivity. Qed.

Lemma is_Some_chosen n w id :
  is_Some (document (chosen n w) !! id) ↔ is_Some (document w !! id).
Proof.
  unfold chosen.
  change (document (with_this ?f (with_document ?g ?x)))
    with (g (document x)).
  by rewrite is_Some_status_written, document_toggled.
Qed.

Lemma world_started s : world (started s) = world s.
Proof. unfold started. by case_match. Qed.

Lemma world_halted s : world (halted s) = world s.
Proof. by destruct s as [w [m r run [[|i]|] T] k b]. Qed.

End Chosen.

(** X17. When the timer is not running and the whole session is left, a
    click on the start button with one of the answers 1 to 5 completes
    normally, starts the timer and turns the button to Pause; the channel
    of that answer is toggled, not started: it plays afterwards exactly
    when it did not play before. It is remembered as the last played
    channel, and the other channels are as they were. *)
Theorem start_toggles_the_chosen_sound
    (choice : string) (n : SoundName) (s : App) :
  isRunning (timer s) = false →
  timeRemaining (timer s) = totalTime (timer s) →
  soundMap choice = Chosen n →
  let s' := Page.exec (startButtonClick (Some choice)) s in
  Page.result (startButtonClick (Some choice)) s = Normal tt ∧
  isRunning (timer s') = true ∧
  timeRemaining (timer s') = timeRemaining (timer s) ∧
  startBtn (browser s') = FacePause ∧
  currentPlayingSound (this (world s')) = Some n ∧
  playing (sound_of n (world s')) = negb (playing (sound_of n (world s))) ∧
  ∀ d, d ≠ n → sound_of d (world s') = sound_of d (world s).
Proof.
  intros Hrun Hfresh Hc. unfold Page.exec, Page.result.
  rewrite (startButtonClick_chosen choice n) by (done || lia).
  cbn [fst snd]. split; [done|].
  assert (Hw : world (with_browser (with_startBtn FacePause)
                 (started (with_world (chosen n) s)))
               = chosen n (world s)).
  { change (world (with_browser ?f ?x)) with (world x).
    rewrite world_started. by destruct s. }
  rewrite Hw.
  do 3 (split; [destruct s as [w [m r run i T] k b]; cbn in Hrun;
                by subst run|]).
  split; [done|]. split.
  - rewrite sound_of_chosen, sound_of_toggled, decide_True by done.
    by destruct (playing (sound_of n (world s))).
  - intros d Hd. by rewrite sound_of_chosen, sound_of_toggled, decide_False.
Qed.

Lemma start_toggles_the_chosen_sound_witness :
  let s0 := loaded (timer_page (λ _, 70%Z)) running in
  let s := Page.exec (Page.engine (toggleSound rain)) s0 in
  let s' := Page.exec (startButtonClick (Some "1")) s in
  playing (sound_of rain (world s)) = true ∧
  isRunning (timer s') = true ∧
  currentPlayingSound (this (world s')) = Some rain ∧
  playing (sound_of rain (world s')) = false.
Proof.
  intros s0 s.
  assert (Hrun : isRunning (timer s) = false) by (vm_compute; reflexivity).
  assert (Hfresh : timeRemaining (timer s) = totalTime (timer s)).
  { vm_compute; reflexivity. }
  assert (Hc : soundMap "1" = Chosen rain) by reflexivity.
  destruct (start_toggles_the_chosen_sound "1" rain s Hrun Hfresh Hc)
    as (_ & H1 & _ & _ & H2 & H3 & _).
  split; [vm_compute; reflexivity|]. split; [exact H1|].
  split; [exact H2|]. rewrite H3. vm_compute. reflexivity.
Defined.

(** X18. When the timer is not running and the whole session is left, a
    click on the start button with the answer 0 completes normally, starts
    the timer and turns the button to Pause. No sound is stopped: every
    channel and the audio graph are as they were; only the remembered
    channel is forgotten. *)
Theorem silent_start_stops_no_sound (s : App) :
  isRunning (timer s) = false →
  timeRemaining (timer s) = totalTime (timer s) →
  let s' := Page.exec (startButtonClick (Some "0")) s in
  Page.result (startButtonClick (Some "0")) s = Normal tt ∧
  isRunning (timer s') = true ∧
  startBtn (browser s') = FacePause ∧
  currentPlayingSound (this (world s')) = None ∧
  (∀ d, sound_of d (world s') = sound_of d (world s)) ∧
  heap (world s') = heap (world s).
Proof.
  intros Hrun Hfresh. unfold Page.exec, Page.result.
  rewrite startButtonClick_silent by (done || lia). cbn [fst snd].
  destruct s as [w [m r run i T] k b]. cbn in Hrun. subst run.
  by repeat split.
Qed.

Lemma silent_start_stops_no_sound_witness :
  let s0 := loaded (timer_page (λ _, 70%Z)) running in
  let s := Page.exec (Page.engine (toggleSound gamma)) s0 in
  let s' := Page.exec (startButtonClick (Some "0")) s in
  isRunning (timer s') = true ∧
  playing (sound_of gamma (world s')) = true.
Proof.
  intros s0 s.
  assert (Hrun : isRunning (timer s) = false) by (vm_compute; reflexivity).
  assert (Hfresh : timeRemaining (timer s) = totalTime (timer s)).
  { vm_compute; reflexivity. }
  destruct (silent_start_stops_no_sound s Hrun Hfresh)
    as (_ & H1 & _ & _ & H2 & _).
  split; [exact H1|]. rewrite H2. vm_compute. reflexivity.
Defined.

(** X19. When the timer is not running and the whole session is left, a
    click on the start button with any other answer than 0 to 5, or with
    the prompt cancelled, starts nothing: the timer, the intervals, the
    button, every channel, the audio graph and the remembered channel are
    as they were. The click throws a TypeError exactly when the answer is
    the name of a property that [soundMap] inherits; otherwise it
    completes normally and leaves the whole state as it is. *)
Theorem other_answers_start_nothing (answer : option string) (s : App) :
  isRunning (timer s) = false →
  timeRemaining (timer s) = totalTime (timer s) →
  answer ∉ valid_answers →
  let s' := Page.exec (startButtonClick answer) s in
  timer s' = timer s ∧
  browser s' = browser s ∧
  (∀ d, sound_of d (world s') = sound_of d (world s)) ∧
  heap (world s') = heap (world s) ∧
  currentPlayingSound (this (world s'))
  = currentPlayingSound (this (world s)) ∧
  (Page.result (startButtonClick answer) s = Throw TypeError
   ↔ ∃ choice, answer = Some choice ∧ choice ∈ inherited_keys) ∧
  (Page.result (startButtonClick answer) s = Normal tt → s' = s).
Proof.
  intros Hrun Hfresh Hv. unfold Page.exec, Page.result.
  rewrite startButtonClick_other by (done || lia).
  destruct answer as [choice|].
  - case_decide as Hi; cbn [fst snd].
    + destruct s as [w t k b]. repeat split; try done. by exists choice.
    + repeat split; try done. by intros (c & [= <-] & Hc).
  - cbn [fst snd]. repeat split; try done. by intros (c & [=] & _).
Qed.

Lemma other_answers_start_nothing_witness :
  let s := loaded (timer_page (λ _, 70%Z)) running in
  Page.result (startButtonClick (Some "toString")) s = Throw TypeError ∧
  Page.exec (startButtonClick (Some "rain")) s = s ∧
  isRunning (timer (Page.exec (startButtonClick (Some "toString")) s))
  = false.
Proof.
  intros s.
  assert (Hrun : isRunning (timer s) = false) by reflexivity.
  assert (Hfresh : timeRemaining (timer s) = totalTime (timer s)).
  { reflexivity. }
  assert (H1 : Some "toString" ∉ valid_answers).
  { unfold valid_answers. rewrite !elem_of_cons, elem_of_nil.
    intros H. repeat (destruct H as [H|H]; [discriminate H|]). done. }
  assert (H2 : Some "rain" ∉ valid_answers).
  { unfold valid_answers. rewrite !elem_of_cons, elem_of_nil.
    intros H. repeat (destruct H as [H|H]; [discriminate H|]). done. }
  destruct (other_answers_start_nothing _ s Hrun Hfresh H1)
    as (Ht & _ & _ & _ & _ & [_ Hthrow] & _).
  destruct (other_answers_start_nothing _ s Hrun Hfresh H2)
    as (_ & _ & _ & _ & _ & _ & Hsame).
  split; [|split].
  - apply Hthrow. exists "toString". split; [done|].
    unfold inherited_keys. rewrite !elem_of_cons. auto 20.
  - apply Hsame. vm_compute. reflexivity.
  - by rewrite Ht.
Defined.

(** X20. A session through the start button. The timer is not running, the
    whole session is left and no channel is playing; the user starts with
    one of the answers 1 to 5, the interval fires at least once and at most
    as often as there are seconds, and the user clicks twice more. The first
    of these clicks pauses: the timer stops and no channel is playing. The
    second resumes without asking: the timer runs with the time that was
    left, the chosen channel is playing again and no other is. *)
Theorem pause_and_resume_by_the_start_button
    (choice : string) (n : SoundName) (randoms : list Q) (today : string)
    (answer1 answer2 : option string) (s : App) :
  has_timer_display (document (world s)) →
  isRunning (timer s) = false →
  timeRemaining (timer s) = totalTime (timer s) →
  (∀ d, playing (sound_of d (world s)) = false) →
  soundMap choice = Chosen n →
  randoms ≠ [] →
  (length randoms ≤ totalTime (timer s))%nat →
  let s1 := Page.exec (startButtonClick (Some choice)) s in
  let s2 := (ticks randoms today s1).2 in
  let s3 := Page.exec (startButtonClick answer1) s2 in
  let s4 := Page.exec (startButtonClick answer2) s3 in
  (isRunning (timer s3) = false ∧
   startBtn (browser s3) = FaceStart ∧
   ∀ d, playing (sound_of d (world s3)) = false) ∧
  (isRunning (timer s4) = true ∧
   startBtn (browser s4) = FacePause ∧
   timeRemaining (timer s4)
   = (totalTime (timer s) - length randoms)%nat ∧
   playing (sound_of n (world s4)) = true ∧
   ∀ d, d ≠ n → playing (sound_of d (world s4)) = false).
Proof.
  intros Hd Hrun Hfresh Hsilent Hc Hne Hk s1 s2 s3 s4.
  (* the start *)
  assert (E1 : s1 = with_browser (with_startBtn FacePause)
                      (started (with_world (chosen n) s))).
  { unfold s1, Page.exec.
    by rewrite (startButtonClick_chosen choice n) by (done || lia). }
  assert (Hw1 : world s1 = chosen n (world s)).
  { rewrite E1. change (world (with_browser ?f ?x)) with (world x).
    rewrite world_started. by destruct s. }
  assert (Ht1 : timer s1 = with_interval (interval (timer s1))
                             (with_isRunning true (timer s))).
  { rewrite E1. destruct s as [w [m r run i T] k b]. cbn in Hrun.
    by subst run. }
  assert (Hd1 : has_timer_display (document (world s1))).
  { rewrite Hw1. unfold has_timer_display in *. by rewrite !is_Some_chosen. }
  assert (Hp1 : ∀ d, playing (sound_of d (world s1)) = bool_decide (d = n)).
  { intros d. rewrite Hw1, sound_of_chosen, sound_of_toggled, Hsilent.
    case_decide; [by rewrite bool_decide_true|by rewrite bool_decide_false]. }
  (* the ticks *)
  assert (Hk1 : (length randoms ≤ timeRemaining (timer s1))%nat).
  { rewrite Ht1. cbn. lia. }
  destruct (ticks_down randoms today s1 Hd1 Hk1)
    as (_ & Ht2 & _ & He2 & _ & _ & _ & _ & _).
  fold s2 in Ht2, He2.
  assert (Hp2 : ∀ d, playing (sound_of d (world s2)) = bool_decide (d = n)).
  { intros d. rewrite <- Hp1. unfold sound_of. by rewrite He2. }
  (* the pause *)
  assert (E3 : s3 = with_browser (with_startBtn FaceStart)
                      (with_world paused (halted s2))).
  { unfold s3, Page.exec. rewrite startButtonClick_running; [done|].
    by rewrite Ht2, Ht1. }
  assert (Hw3 : world s3 = paused (world s2)).
  { rewrite E3. change (world (with_browser ?f (with_world ?g ?x)))
      with (g (world x)). by rewrite world_halted. }
  assert (Ht3 : timer s3 = with_interval (interval (timer s3))
                  (with_isRunning false (timer s2))).
  { rewrite E3. by destruct s2 as [w [m r run [[|i]|] T] k b]. }
  assert (Hc3 : currentPlayingSound (this (world s3)) = Some n).
  { rewrite Hw3. apply current_paused_single.
    - by rewrite Hp2, bool_decide_true.
    - intros d Hdn. by rewrite Hp2, bool_decide_false. }
  split.
  { split; [by rewrite Ht3|]. split; [by rewrite E3|].
    intros d. rewrite Hw3. apply playing_paused. }
  (* the resume *)
  assert (E4 : s4 = with_browser (with_startBtn FacePause)
                      (with_world resumed (started s3))).
  { unfold s4, Page.exec. rewrite startButtonClick_resume; [done| |].
    - by rewrite Ht3.
    - rewrite Ht3, Ht2, Ht1. cbn. destruct randoms; [done|]. cbn in *. lia. }
  assert (Hw4 : world s4 = resumed (world s3)).
  { rewrite E4. change (world (with_browser ?f (with_world ?g ?x)))
      with (g (world x)). by rewrite world_started. }
  assert (Ht4 : timer s4 = with_interval (interval (timer s4))
                  (with_isRunning true (timer s3))).
  { rewrite E4.
    assert (Hr3 : isRunning (timer s3) = false) by (by rewrite Ht3).
    destruct s3 as [w [m r run i T] k b]. cbn in Hr3. by subst run. }
  split; [by rewrite Ht4|]. split; [by rewrite E4|].
  split; [rewrite Ht4, Ht3, Ht2, Ht1; cbn; by rewrite Hfresh|].
  rewrite Hw4. unfold resumed. rewrite Hc3.
  assert (Hp3 : ∀ d, playing (sound_of d (world s3)) = false).
  { intros d. rewrite Hw3. apply playing_paused. }
  split.
  - rewrite sound_of_with_document, sound_of_toggled, Hp3.
    by rewrite decide_True.
  - intros d Hdn. rewrite sound_of_with_document, sound_of_toggled.
    by rewrite decide_False.
Qed.

Lemma pause_and_resume_by_the_start_button_witness :
  let s := loaded (timer_page (λ _, 70%Z)) running in
  let s1 := Page.exec (startButtonClick (Some "3")) s in
  let s2 := (ticks [0; 0]%Q "Mon Nov 02 2026" s1).2 in
  let s3 := Page.exec (startButtonClick None) s2 in
  let s4 := Page.exec (startButtonClick None) s3 in
  playing (sound_of theta (world s3)) = false ∧
  playing (sound_of theta (world s4)) = true ∧
  timeRemaining (timer s4) = 1498%nat.
Proof.
  intros s.
  assert (Hd : has_timer_display (document (world s))).
  { vm_compute. repeat split; eexists; reflexivity. }
  assert (Hsilent : ∀ d, playing (sound_of d (world s)) = false).
  { by intros []. }
  assert (Hne : [0; 0]%Q ≠ []) by done.
  assert (Hk : (length [0; 0]%Q ≤ totalTime (timer s))%nat).
  { cbn. lia. }
  destruct (pause_and_resume_by_the_start_button "3" theta [0; 0]%Q
              "Mon Nov 02 2026" None None s Hd eq_refl eq_refl Hsilent
              eq_refl Hne Hk)
    as [(_ & _ & H3) (_ & _ & H4 & H5 & _)].
  exact (conj (H3 theta) (conj H5 H4)).
Defined.

(** X21. The start button takes a paused timer for a fresh one when the
    whole session is left. A click on a running timer that has not counted
    a second pauses it; the click after that asks for a sound again, and
    with the prompt cancelled it completes normally and changes nothing:
    the timer stays paused and no channel starts. *)
Theorem pause_before_the_first_tick_asks_again
    (answer : option string) (s : App) :
  isRunning (timer s) = true →
  timeRemaining (timer s) = totalTime (timer s) →
  let s1 := Page.exec (startButtonClick answer) s in
  isRunning (timer s1) = false ∧
  (∀ d, playing (sound_of d (world s1)) = false) ∧
  startButtonClick None s1 = (Normal tt, s1).
Proof.
  intros Hrun Hfresh s1.
  assert (E1 : s1 = with_browser (with_startBtn FaceStart)
                      (with_world paused (halted s))).
  { unfold s1, Page.exec. by rewrite startButtonClick_running. }
  assert (Ht1 : timer s1 = with_interval (interval (timer s1))
                  (with_isRunning false (timer s))).
  { rewrite E1. by destruct s as [w [m r run [[|i]|] T] k b]. }
  split; [by rewrite Ht1|]. split.
  - intros d. rewrite E1.
    change (world (with_browser ?f (with_world ?g ?x))) with (g (world x)).
    apply playing_paused.
  - rewrite startButtonClick_other; [done| | |].
    + by rewrite Ht1.
    + rewrite Ht1. cbn. lia.
    + unfold valid_answers. rewrite !elem_of_cons, elem_of_nil.
      intros H. repeat (destruct H as [H|H]; [discriminate H|]). done.
Qed.

Lemma pause_before_the_first_tick_asks_again_witness :
  let s := Page.exec (startButtonClick (Some "1"))
             (loaded (timer_page (λ _, 70%Z)) running) in
  let s1 := Page.exec (startButtonClick None) s in
  playing (sound_of rain (world s)) = true ∧
  Page.exec (startButtonClick None) s1 = s1 ∧
  playing (sound_of rain (world s1)) = false.
Proof.
  intros s.
  assert (Hrun : isRunning (timer s) = true) by (vm_compute; reflexivity).
  assert (Hfresh : timeRemaining (timer s) = totalTime (timer s)).
  { vm_compute. reflexivity. }
  destruct (pause_before_the_first_tick_asks_again None s Hrun Hfresh)
    as (_ & Hp & Hsame).
  split; [vm_compute; reflexivity|]. split; [|apply Hp].
  unfold Page.exec at 1. by rewrite Hsame.
Defined.


(** ** The streak *)

Section StreakOnce.
Local Open Scope page_scope.

Lemma incrementStreak_counted today s :
  lastDate (stored_streak s) = Some today →
  Streak.incrementStreak today s = (Normal tt, s).
Proof.
  intros H. unfold Streak.incrementStreak. rewrite page_bind_gets.
  fold (stored_streak s). rewrite decide_False; [done|].
  intros Hn. by apply Hn.
Qed.

End StreakOnce.

(** X22. [incrementStreak] counts one session a day. A call on a day that
    is not the stored one adds one to the streak and stores the new count
    with the day, also when the page has no streak counter and the call
    throws; a call on the stored day completes normally and changes
    nothing. So a second call on the same day never counts. *)
Theorem streak_counts_one_session_a_day (today : string) (s : App) :
  let s1 := Page.exec (Streak.incrementStreak today) s in
  (lastDate (stored_streak s) ≠ Some today →
   streak s1 = S (streak s) ∧
   streakData (browser s1)
   = Some {| count := S (streak s); lastDate := Some today |}) ∧
  (lastDate (stored_streak s) = Some today →
   Streak.incrementStreak today s = (Normal tt, s)) ∧
  Streak.incrementStreak today s1 = (Normal tt, s1).
Proof.
  intros s1.
  assert (H1 : lastDate (stored_streak s) ≠ Some today →
    streak s1 = S (streak s) ∧
    streakData (browser s1)
    = Some {| count := S (streak s); lastDate := Some today |}).
  { intros Hnew. unfold s1, Page.exec.
    destruct (document (world s) !! "streakCount") as [el|] eqn:Hel.
    - rewrite incrementStreak_eq by (by rewrite Hel).
      unfold streak_counted. rewrite decide_True by done.
      by destruct s as [[] ? ? []].
    - rewrite incrementStreak_missing by done.
      rewrite decide_True by done. by destruct s as [[] ? ? []]. }
  split; [exact H1|]. split; [apply incrementStreak_counted|].
  apply incrementStreak_counted.
  destruct (decide (lastDate (stored_streak s) = Some today)) as [Hold|Hnew].
  - unfold s1, Page.exec. by rewrite incrementStreak_counted.
  - destruct (H1 Hnew) as [_ Hd]. unfold stored_streak. by rewrite Hd.
Qed.

(** ** The display *)

Section Clock.

Lemma read_clock_upto (n : nat) :
  forallb (λ t, bool_decide (read_clock (timeString t) = Some t)) (seq 0 n)
  = true →
  ∀ t, (t < n)%nat → read_clock (timeString t) = Some t.
Proof.
  intros H t Ht. rewrite forallb_forall in H.
  specialize (H t). rewrite bool_decide_eq_true in H. apply H.
  apply in_seq. lia.
Qed.

End Clock.

(** X23. The display can be read back. For every time the timer can hold,
    up to the 120 minutes the custom duration allows, the text that
    [updateDisplay] writes has its colon after the minutes, two digits of
    seconds below 60 and at least two digits of minutes, and these digits
    are the time left; so two different times never show the same text. *)
Theorem display_reads_back (t : nat) :
  (t ≤ 120 * 60)%nat → read_clock (timeString t) = Some t.
Proof.
  intros Ht. apply (read_clock_upto (120 * 60 + 1)); [|lia].
  vm_compute. reflexivity.
Qed.

Lemma display_reads_back_witness :
  timeString 1500 = "25:00" ∧ read_clock "25:00" = Some 1500%nat ∧
  timeString (100 * 60) = "100:00" ∧
  read_clock "100:00" = Some (100 * 60)%nat.
Proof.
  assert (H1 : (1500 ≤ 120 * 60)%nat) by lia.
  assert (H2 : (100 * 60 ≤ 120 * 60)%nat) by lia.
  pose proof (display_reads_back 1500 H1) as E1.
  pose proof (display_reads_back (100 * 60) H2) as E2.
  assert (T1 : timeString 1500 = "25:00") by (vm_compute; reflexivity).
  assert (T2 : timeString (100 * 60) = "100:00").
  { vm_compute; reflexivity. }
  rewrite T1 in E1. rewrite T2 in E2.
  exact (conj T1 (conj E1 (conj T2 E2))).
Defined.
